(** * Session sequencing of the Atomix Go client

    A shallow embedding of [pkg/client/primitive/session.go]: the session
    record, the three header constructions, [recordResponse], the stream
    registry with [Serialize], the dispatch loop [doRequest] and the
    command-stream reader [commandStream], followed by the properties of
    the sequencing state that the specification lists.

    Conventions.
    - [uint64] values are integers in [Z]; every [+ 1] the source performs
      on a [uint64] is followed by its reduction modulo [2^64].
    - The session and the stream objects it points to live in a [World]:
      [s.streams] maps a stream id to a pointer, and the pointed-to
      [Stream] objects live in a heap, so that a reader that still holds a
      stream removed from the registry keeps mutating the same object.
    - The locks ([mu]) are not represented: every method body that runs
      under the lock is one atomic state transformer. *)

From stdpp Require Import base gmap list strings.
From Stdlib Require Import ZArith Lia Sorted.

Local Open Scope Z_scope.

(* ===================================================================== *)
(** ** Machine integers *)

Definition uint64 (z : Z) : Z := z mod 2 ^ 64.

(** Go's conversion [int32(x)]: truncation to 32 bits, two's complement. *)
Definition int32 (z : Z) : Z := (z + 2 ^ 31) mod 2 ^ 32 - 2 ^ 31.

Definition error : Type := string.
(** [net.Address] *)
Module net.
Definition Address : Type := string.
End net.

(* ===================================================================== *)
(** ** Wire headers (package [headers]), with the fields the session uses *)

Module Name.
(** [primitiveapi.Name] *)
Record t : Type := mk { Name : string; Namespace : string }.
End Name.

Module StreamHeader.
Record t : Type := mk { StreamID : Z; ResponseID : Z }.
End StreamHeader.

Module RequestHeader.
Record t : Type := mk {
  Name : option Name.t;
  Partition : Z;
  SessionID : Z;
  Index : Z;
  RequestID : Z;
  Streams : list StreamHeader.t
}.
End RequestHeader.

(** [headers.ResponseStatus]: the three values [doRequest] switches on; any
    other value of the enumeration falls through the switch. *)
Inductive ResponseStatus : Type :=
| ResponseStatus_OK
| ResponseStatus_NOT_LEADER
| ResponseStatus_ERROR
| ResponseStatus_other (code : Z).

(** [headers.ResponseType], likewise. *)
Inductive ResponseType : Type :=
| ResponseType_RESPONSE
| ResponseType_OPEN_STREAM
| ResponseType_CLOSE_STREAM
| ResponseType_other (code : Z).

Module ResponseHeader.
Record t : Type := mk {
  Status : ResponseStatus;
  Type_ : ResponseType;
  SessionID : Z;
  Index : Z;
  ResponseID : Z;
  Leader : net.Address
}.
End ResponseHeader.

(* ===================================================================== *)
(** ** The connection pool *)

Module Conns.
(** A transport is identified by the address it was dialled to. *)
Definition Conn : Type := net.Address.

(** Modelled from the spec: [net.Conns] (package [util/net]) is not part
    of the sources at hand. Section 4.2: the pool holds one bound
    address and a lazily established transport. *)
Record t : Type := mk { Address : net.Address; conn : option Conn }.

(** Modelled from the spec: [net.NewConns], a pool bound to the
    partition's address with no transport yet. *)
Definition NewConns (address : net.Address) : t := mk address None.

(** Modelled from the spec: [Conns.Connect] returns the currently bound
    transport, creating it on first call or after invalidation. [dial] is
    the environment's answer should a transport have to be created:
    [None] for success, [Some e] for the error [e]. *)
Definition Connect (dial : option error) (c : t) : (Conn + error) * t :=
  match conn c with
  | Some k => (inl k, c)
  | None =>
      match dial with
      | None => (inl (Address c), mk (Address c) (Some (Address c)))
      | Some e => (inr e, c)
      end
  end.

(** Modelled from the spec: [Conns.Reconnect] sets the bound address and
    invalidates the current transport, so that the next [Connect]
    rebuilds it. *)
Definition Reconnect (address : net.Address) (c : t) : t := mk address None.
End Conns.

(* ===================================================================== *)
(** ** Streams *)

Module Stream.
(** [type Stream struct]: the back pointer [session] is implicit (one
    session per world). *)
Record t : Type := mk { ID : Z; responseID : Z }.

(** [func (s *Stream) getHeader()] *)
Definition getHeader (s : t) : StreamHeader.t :=
  StreamHeader.mk (ID s) (responseID s).

(** [func (s *Stream) Serialize(header)]: the new value of the object
    and the returned boolean. *)
Definition Serialize (header : ResponseHeader.t) (s : t) : bool * t :=
  if decide (ResponseHeader.ResponseID header = uint64 (responseID s + 1))
  then (true, mk (ID s) (uint64 (responseID s + 1)))
  else (false, s).
End Stream.

(** Pointers to [Stream] objects. *)
Definition loc : Type := positive.

(* ===================================================================== *)
(** ** The session *)

Module Session.
(** [type Session struct]. [Timeout] is a duration in nanoseconds; the
    ticker is a runtime timer and has no sequential content. *)
Record t : Type := mk {
  Partition : Z;
  Timeout : Z;
  SessionID : Z;
  conns : Conns.t;
  lastIndex : Z;
  requestID : Z;
  responseID : Z;
  streams : gmap Z loc
}.

Definition set_SessionID (v : Z) (s : t) : t :=
  mk (Partition s) (Timeout s) v (conns s) (lastIndex s) (requestID s)
     (responseID s) (streams s).
Definition set_conns (v : Conns.t) (s : t) : t :=
  mk (Partition s) (Timeout s) (SessionID s) v (lastIndex s) (requestID s)
     (responseID s) (streams s).
Definition set_lastIndex (v : Z) (s : t) : t :=
  mk (Partition s) (Timeout s) (SessionID s) (conns s) v (requestID s)
     (responseID s) (streams s).
Definition set_requestID (v : Z) (s : t) : t :=
  mk (Partition s) (Timeout s) (SessionID s) (conns s) (lastIndex s) v
     (responseID s) (streams s).
Definition set_responseID (v : Z) (s : t) : t :=
  mk (Partition s) (Timeout s) (SessionID s) (conns s) (lastIndex s)
     (requestID s) v (streams s).
Definition set_streams (v : gmap Z loc) (s : t) : t :=
  mk (Partition s) (Timeout s) (SessionID s) (conns s) (lastIndex s)
     (requestID s) (responseID s) v.
End Session.

(** The session together with the stream objects allocated so far. *)
Record World : Type := mkWorld {
  session : Session.t;
  heap : gmap loc Stream.t
}.

Definition on_session (f : Session.t → Session.t) (w : World) : World :=
  mkWorld (f (session w)) (heap w).

(** *** A state monad over the world *)

Definition M (A : Type) : Type := World → A * World.

Definition ret {A} (a : A) : M A := λ w, (a, w).
Definition bind {A B} (m : M A) (k : A → M B) : M B :=
  λ w, let (a, w') := m w in k a w'.
Definition gets {A} (f : World → A) : M A := λ w, (f w, w).
Definition modify (f : World → World) : M unit := λ w, (tt, f w).

Notation "'do' x <- m ; k" := (bind m (λ x, k))
  (at level 10, x binder, m at level 100, k at level 200, only parsing).
Notation "'do_' m ; k" := (bind m (λ _, k))
  (at level 10, m at level 100, k at level 200, only parsing).

(** *** Header construction *)

(** The body of [getStreamHeaders]'s loop for one registry entry. *)
Definition stream_header_of (w : World) (p : loc) : list StreamHeader.t :=
  match heap w !! p with
  | Some stream =>
      if decide (Stream.ID stream <= Session.responseID (session w))
      then [Stream.getHeader stream]
      else []
  | None => []
  end.

(** [func (s *Session) getStreamHeaders()]. Go ranges over a map in an
    unspecified order; [map_to_list] fixes one. *)
Definition getStreamHeaders (w : World) : list StreamHeader.t :=
  map_to_list (Session.streams (session w))
    ≫= (λ e : Z * loc, stream_header_of w e.2).

(** [func (s *Session) getState(name)] *)
Definition getState (name : option Name.t) : M RequestHeader.t :=
  gets (λ w,
    let s := session w in
    RequestHeader.mk name (int32 (Session.Partition s)) (Session.SessionID s)
      (Session.lastIndex s) (Session.responseID s) (getStreamHeaders w)).

(** [func (s *Session) getQueryHeader(name)] *)
Definition getQueryHeader (name : option Name.t) : M RequestHeader.t :=
  gets (λ w,
    let s := session w in
    RequestHeader.mk name (int32 (Session.Partition s)) (Session.SessionID s)
      (Session.lastIndex s) (Session.requestID s) []).

(** [func (s *Session) nextCommandHeader(name)] *)
Definition nextCommandHeader (name : option Name.t) : M RequestHeader.t :=
  do_ modify (on_session (λ s,
        Session.set_requestID (uint64 (Session.requestID s + 1)) s));
  gets (λ w,
    let s := session w in
    RequestHeader.mk name (int32 (Session.Partition s)) (Session.SessionID s)
      (Session.lastIndex s) (Session.requestID s) []).

(** Allocation of a [Stream] object: [&Stream{ID: id, session: s}]. *)
Definition new_Stream (id : Z) : M loc :=
  λ w, let p := fresh (dom (heap w)) in
       (p, mkWorld (session w) (<[p := Stream.mk id 0]> (heap w))).

(** [func (s *Session) nextStreamHeader(name)] *)
Definition nextStreamHeader (name : option Name.t)
  : M (loc * RequestHeader.t) :=
  do_ modify (on_session (λ s,
        Session.set_requestID (uint64 (Session.requestID s + 1)) s));
  do id <- gets (λ w, Session.requestID (session w));
  do stream <- new_Stream id;
  do_ modify (on_session (λ s,
        Session.set_streams (<[Session.requestID s := stream]>
                               (Session.streams s)) s));
  do header <- gets (λ w,
    let s := session w in
    RequestHeader.mk name (int32 (Session.Partition s)) (Session.SessionID s)
      (Session.lastIndex s) (Session.requestID s) []);
  ret (stream, header).

(** *** Recording responses *)

Module Import SessionOps.
Import Session.

(** The three conditional updates [recordResponse] makes under the
    write lock. *)
Definition recordResponse_locked
    (requestHeader : RequestHeader.t) (responseHeader : ResponseHeader.t)
    (s : t) : t :=
  let s1 :=
    if decide (ResponseHeader.SessionID responseHeader > SessionID s)
    then set_lastIndex (ResponseHeader.SessionID responseHeader)
           (set_SessionID (ResponseHeader.SessionID responseHeader) s)
    else s in
  let s2 :=
    if decide (RequestHeader.RequestID requestHeader > responseID s1)
    then set_responseID (RequestHeader.RequestID requestHeader) s1
    else s1 in
  if decide (ResponseHeader.Index responseHeader > lastIndex s2)
  then set_lastIndex (ResponseHeader.Index responseHeader) s2
  else s2.

(** [func (s *Session) recordResponse(requestHeader, responseHeader)],
    on the session record. *)
Definition recordResponse_session
    (requestHeader : RequestHeader.t) (responseHeader : ResponseHeader.t)
    (s : t) : t :=
  if decide (ResponseHeader.Index responseHeader > lastIndex s)
  then recordResponse_locked requestHeader responseHeader s
  else s.
End SessionOps.

(** [recordResponse] as a method: it writes the session and no stream
    object. *)
Definition recordResponse
    (requestHeader : RequestHeader.t) (responseHeader : ResponseHeader.t)
  : M unit :=
  modify (on_session (recordResponse_session requestHeader responseHeader)).

(** [func (s *Session) deleteStream(streamID)] *)
Definition deleteStream (streamID : Z) : M unit :=
  modify (on_session (λ s,
    Session.set_streams (delete streamID (Session.streams s)) s)).

(** [stream.Serialize(header)] through a pointer. A pointer handed out by
    [nextStreamHeader] is always allocated; the [None] branch is there
    only because heap lookup is partial. *)
Definition Serialize (stream : loc) (header : ResponseHeader.t) : M bool :=
  λ w, match heap w !! stream with
       | Some obj =>
           let (ok, obj') := Stream.Serialize header obj in
           (ok, mkWorld (session w) (<[stream := obj']> (heap w)))
       | None => (false, w)
       end.

(** [func (s *Stream) Close()]: [s.session.deleteStream(s.ID)]. *)
Definition Stream_Close (stream : loc) : M unit :=
  λ w, match heap w !! stream with
       | Some obj => deleteStream (Stream.ID obj) w
       | None => (tt, w)
       end.

(* ===================================================================== *)
(** ** The dispatch loop *)

(** [s.conns.Connect()] and [s.conns.Reconnect(address)] on the session's
    pool. *)
Definition Connect (dial : option error) : M (Conns.Conn + error) :=
  λ w, let (r, c) := Conns.Connect dial (Session.conns (session w)) in
       (r, on_session (Session.set_conns c) w).

Definition Reconnect (address : net.Address) : M unit :=
  modify (on_session (λ s,
    Session.set_conns (Conns.Reconnect address (Session.conns s)) s)).

(** What the caller-supplied closure [f(conn)] comes back with: an
    error, or a response with its header (a nil header with a nil error
    is not among the inputs represented). *)
Inductive rpc_result (R : Type) : Type :=
| CallFails (e : error)
| Replies (h : ResponseHeader.t) (response : R).
Arguments CallFails {R} e.
Arguments Replies {R} h response.

(** One turn of the loop as the environment answers it: [dial] is
    consulted when [Connect] has to create a transport, [answer] is the
    result of the RPC. *)
Record attempt (R : Type) : Type := Attempt {
  dial : option error;
  answer : rpc_result R
}.
Arguments Attempt {R} dial answer.
Arguments dial {R} a.
Arguments answer {R} a.

(** How a call of [doRequest] stands once the scripted answers are used
    up: it returned a response, returned an error, or is still looping. *)
Inductive outcome (R : Type) : Type :=
| Returned (response : R)
| Failed (err : error)
| Spinning.
Arguments Returned {R} response.
Arguments Failed {R} err.
Arguments Spinning {R}.

(** Observable actions of a dispatch: an invocation of the closure and a
    call of [Reconnect]. *)
Inductive event (Call : Type) : Type :=
| EvCall (c : Call)
| EvReconnect (a : net.Address).
Arguments EvCall {Call} c.
Arguments EvReconnect {Call} a.

Definition traced {Call A} (evs : list (event Call))
    (m : M (A * list (event Call))) : M (A * list (event Call)) :=
  do x <- m; ret (x.1, evs ++ x.2).

Definition unknown_error : error := "an unknown error occurred".

(** [func (s *Session) doRequest(requestHeader, f)]; [f conn] describes
    the RPC the closure issues over [conn]. *)
Fixpoint doRequest {Call R} (requestHeader : RequestHeader.t)
    (f : Conns.Conn → Call) (script : list (attempt R))
  : M (outcome R * list (event Call)) :=
  match script with
  | [] => ret (Spinning, [])
  | a :: rest =>
      do c <- Connect (dial a);
      match c with
      | inr err => ret (Failed err, [])
      | inl conn =>
          match answer a with
          | CallFails _ =>
              traced [EvCall (f conn)] (doRequest requestHeader f rest)
          | Replies responseHeader response =>
              match ResponseHeader.Status responseHeader with
              | ResponseStatus_OK =>
                  do_ recordResponse requestHeader responseHeader;
                  ret (Returned response, [EvCall (f conn)])
              | ResponseStatus_NOT_LEADER =>
                  do_ Reconnect (ResponseHeader.Leader responseHeader);
                  traced [EvCall (f conn);
                          EvReconnect (ResponseHeader.Leader responseHeader)]
                         (doRequest requestHeader f rest)
              | ResponseStatus_ERROR =>
                  ret (Failed unknown_error, [EvCall (f conn)])
              | ResponseStatus_other _ =>
                  traced [EvCall (f conn)] (doRequest requestHeader f rest)
              end
          end
      end
  end.

(** [func getName(name Name)] is the identity on the two fields kept. *)
Definition getName (name : Name.t) : Name.t :=
  Name.mk (Name.Name name) (Name.Namespace name).

Section Callers.
Context {Call R : Type}.
(** The primitive's closure [f(ctx, conn, header)]. *)
Variable f : Conns.Conn → RequestHeader.t → Call.

(** [func (s *Session) doSession(ctx, f)] *)
Definition doSession (script : list (attempt R))
  : M (outcome R * list (event Call)) :=
  do header <- getState None;
  doRequest header (λ conn, f conn header) script.

(** [func (s *Session) doPrimitive(ctx, name, f)] *)
Definition doPrimitive (name : Name.t) (script : list (attempt R))
  : M (outcome R * list (event Call)) :=
  do header <- getState (Some (Name.mk (Name.Name name)
                                       (Name.Namespace name)));
  doRequest header (λ conn, f conn header) script.

(** [func (s *Session) doQuery(ctx, name, f)] *)
Definition doQuery (name : Name.t) (script : list (attempt R))
  : M (outcome R * list (event Call)) :=
  do header <- getQueryHeader (Some (getName name));
  doRequest header (λ conn, f conn header) script.

(** [func (s *Session) doCommand(ctx, name, f)] *)
Definition doCommand (name : Name.t) (script : list (attempt R))
  : M (outcome R * list (event Call)) :=
  do header <- nextCommandHeader (Some (getName name));
  doRequest header (λ conn, f conn header) script.
End Callers.

(* ===================================================================== *)
(** ** The command-stream reader *)

(** What [responseFunc(responses)] yields. For a message, [redial] and
    [reopen] are the environment's answers to [Connect] and to the opening
    RPC, consulted only when the message is a NOT_LEADER response. A
    message always carries a header: a nil header returned with a nil
    error, which the readers would dereference, is not among the inputs
    represented. *)
Inductive recv (R : Type) : Type :=
| RecvErr (e : error)
| Recv (h : ResponseHeader.t) (response : R)
       (redial reopen : option error).
Arguments RecvErr {R} e.
Arguments Recv {R} h response redial reopen.

(** The channels a reader holds: the values sent on [responseCh] so far
    (oldest first), whether it is closed, and [handshakeCh] ([None] for a
    nil channel, otherwise whether it is closed). *)
Record Reader (R : Type) : Type := mkReader {
  delivered : list R;
  responseCh_closed : bool;
  handshakeCh : option bool
}.
Arguments mkReader {R} delivered responseCh_closed handshakeCh.
Arguments delivered {R} r.
Arguments responseCh_closed {R} r.
Arguments handshakeCh {R} r.

Inductive reader_status : Type :=
| Reading      (* blocked in [responseFunc]: no scripted input is left *)
| Exited       (* the goroutine returned *)
| Panicked.    (* close of a closed channel, or send on a closed channel *)

(** [responseCh <- response] *)
Definition send {R} (response : R) (rd : Reader R) : option (Reader R) :=
  if responseCh_closed rd then None
  else Some (mkReader (delivered rd ++ [response]) false (handshakeCh rd)).

(** [close(responseCh)] *)
Definition close_responseCh {R} (rd : Reader R) : option (Reader R) :=
  if responseCh_closed rd then None
  else Some (mkReader (delivered rd) true (handshakeCh rd)).

(** [if ok && handshakeCh != nil { close(handshakeCh) }] *)
Definition close_handshakeCh {R} (ok : bool) (rd : Reader R)
  : option (Reader R) :=
  match ok, handshakeCh rd with
  | true, Some false =>
      Some (mkReader (delivered rd) (responseCh_closed rd) (Some true))
  | true, Some true => None
  | _, _ => Some rd
  end.

Section CommandStream.
Context {Call R : Type}.
Variable f : Conns.Conn → RequestHeader.t → Call.

Definition reader_result : Type :=
  (reader_status * Reader R) * list (event Call).

(** [close(responseCh); stream.Close(); return] *)
Definition close_and_exit (stream : loc) (rd : Reader R)
    (evs : list (event Call)) : M reader_result :=
  match close_responseCh rd with
  | None => ret (Panicked, rd, evs)
  | Some rd' => do_ Stream_Close stream; ret (Exited, rd', evs)
  end.

(** [func (s *Session) commandStream(...)]. After a NOT_LEADER response
    the goroutine hands over to a new one reading the reopened stream
    with a nil [handshakeCh]; the script continues with what that one
    receives. *)
Fixpoint commandStream (script : list (recv R)) (stream : loc)
    (requestHeader : RequestHeader.t) (rd : Reader R) : M reader_result :=
  match script with
  | [] => ret (Reading, rd, [])
  | RecvErr _ :: _ => close_and_exit stream rd []
  | Recv responseHeader response redial reopen :: rest =>
      match ResponseHeader.Type_ responseHeader with
      | ResponseType_OPEN_STREAM =>
          do ok <- Serialize stream responseHeader;
          match close_handshakeCh ok rd with
          | None => ret (Panicked, rd, [])
          | Some rd' => commandStream rest stream requestHeader rd'
          end
      | ResponseType_CLOSE_STREAM =>
          do ok <- Serialize stream responseHeader;
          if ok then close_and_exit stream rd []
          else commandStream rest stream requestHeader rd
      | ResponseType_RESPONSE =>
          match ResponseHeader.Status responseHeader with
          | ResponseStatus_OK =>
              do_ recordResponse requestHeader responseHeader;
              do ok <- Serialize stream responseHeader;
              if ok then
                match send response rd with
                | None => ret (Panicked, rd, [])
                | Some rd' => commandStream rest stream requestHeader rd'
                end
              else commandStream rest stream requestHeader rd
          | ResponseStatus_NOT_LEADER =>
              let leader := ResponseHeader.Leader responseHeader in
              do_ Reconnect leader;
              do c <- Connect redial;
              match c with
              | inr _ => close_and_exit stream rd [EvReconnect leader]
              | inl conn =>
                  let evs := [EvReconnect leader;
                              EvCall (f conn requestHeader)] in
                  match reopen with
                  | Some _ => close_and_exit stream rd evs
                  | None =>
                      traced evs
                        (commandStream rest stream requestHeader
                           (mkReader (delivered rd) (responseCh_closed rd)
                                     None))
                  end
              end
          | ResponseStatus_ERROR => close_and_exit stream rd []
          | ResponseStatus_other _ =>
              commandStream rest stream requestHeader rd
          end
      | ResponseType_other _ => commandStream rest stream requestHeader rd
      end
  end.
End CommandStream.

(* ===================================================================== *)
(** ** Sessions from creation on *)

(** The struct [NewSession] builds before [open]: the counters are Go's
    zero values and the registry is the empty map. *)
Definition NewSession_init (partitionID : Z) (address : net.Address)
    (timeout : Z) : World :=
  mkWorld (Session.mk partitionID timeout 0 (Conns.NewConns address) 0 0 0 ∅)
          ∅.

(** A method of the session invoked by a client thread, in the order the
    session lock serialises them. *)
Inductive method : Type :=
| call_nextCommandHeader (name : option Name.t)
| call_nextStreamHeader (name : option Name.t)
| call_getQueryHeader (name : option Name.t)
| call_getState (name : option Name.t)
| call_recordResponse (requestHeader : RequestHeader.t)
                      (responseHeader : ResponseHeader.t)
| call_deleteStream (streamID : Z)
| call_Serialize (stream : loc) (responseHeader : ResponseHeader.t).

Definition is_command (m : method) : bool :=
  match m with
  | call_nextCommandHeader _ | call_nextStreamHeader _ => true
  | _ => false
  end.

(** Runs one method; the result lists the [request_id] of the command or
    command-stream header it built, if it built one. *)
Definition invoke (m : method) : M (list Z) :=
  match m with
  | call_nextCommandHeader name =>
      do h <- nextCommandHeader name; ret [RequestHeader.RequestID h]
  | call_nextStreamHeader name =>
      do x <- nextStreamHeader name; ret [RequestHeader.RequestID x.2]
  | call_getQueryHeader name => do_ getQueryHeader name; ret []
  | call_getState name => do_ getState name; ret []
  | call_recordResponse rq rs => do_ recordResponse rq rs; ret []
  | call_deleteStream id => do_ deleteStream id; ret []
  | call_Serialize p h => do_ Serialize p h; ret []
  end.

Fixpoint invoke_all (ms : list method) : M (list Z) :=
  match ms with
  | [] => ret []
  | m :: ms' =>
      do ids <- invoke m; do ids' <- invoke_all ms'; ret (ids ++ ids')
  end.

(** The calls of [recordResponse] a session sees, applied in order. *)
Fixpoint recordResponses (calls : list (RequestHeader.t * ResponseHeader.t))
    (s : Session.t) : Session.t :=
  match calls with
  | [] => s
  | (rq, rs) :: calls' =>
      recordResponses calls' (recordResponse_session rq rs s)
  end.

(** The request ids [recordResponses] takes into account: those of the
    calls whose response index exceeds [lastIndex] at the time of the
    call. *)
Fixpoint recorded_request_ids
    (calls : list (RequestHeader.t * ResponseHeader.t))
    (s : Session.t) : list Z :=
  match calls with
  | [] => []
  | (rq, rs) :: calls' =>
      (if decide (ResponseHeader.Index rs > Session.lastIndex s)
       then [RequestHeader.RequestID rq] else [])
      ++ recorded_request_ids calls' (recordResponse_session rq rs s)
  end.

Definition max_list (d : Z) (l : list Z) : Z := foldr Z.max d l.

(** The number of command and command-stream headers a sequence of calls
    builds. *)
Definition commands (ms : list method) : Z :=
  Z.of_nat (length (filter (λ m, is_command m = true) ms)).

(** Every registered pointer is allocated and points to the stream whose
    [ID] is the key it is registered under. *)
Definition registry_wf (w : World) : Prop :=
  ∀ id p, Session.streams (session w) !! id = Some p →
          ∃ stream, heap w !! p = Some stream ∧ Stream.ID stream = id.

(** Final state and result of a computation. *)
Definition exec {A} (m : M A) (w : World) : World := (m w).2.
Definition eval {A} (m : M A) (w : World) : A := (m w).1.

(** The sequencing state of a session: everything but the connection
    pool, together with the stream objects. *)
Definition sequence_state (w : World)
  : Z * Z * Z * Z * gmap Z loc * gmap loc Stream.t :=
  let s := session w in
  (Session.SessionID s, Session.lastIndex s, Session.requestID s,
   Session.responseID s, Session.streams s, heap w).

(** The invocations of the closure in a trace. *)
Definition calls_of {Call} (tr : list (event Call)) : list Call :=
  omap (λ e, match e with EvCall c => Some c | EvReconnect _ => None end) tr.





(** Concrete inputs used below. *)
Definition session_at (lastIndex requestID responseID : Z) : World :=
  mkWorld (Session.mk 1 30000000000 1 (Conns.NewConns "addr1")
             lastIndex requestID responseID ∅) ∅.

Definition request_with_id (requestID : Z) : RequestHeader.t :=
  RequestHeader.mk None 1 1 0 requestID [].

Definition ok_response (index responseID : Z) : ResponseHeader.t :=
  ResponseHeader.mk ResponseStatus_OK ResponseType_RESPONSE 1 index
    responseID "".

Definition not_leader_response (leader : net.Address) : ResponseHeader.t :=
  ResponseHeader.mk ResponseStatus_NOT_LEADER ResponseType_RESPONSE 1 0 0
    leader.

Definition error_response : ResponseHeader.t :=
  ResponseHeader.mk ResponseStatus_ERROR ResponseType_RESPONSE 1 0 0 "".

(* ===================================================================== *)
(** ** The query-stream reader *)

Section QueryStream.
Context {Call R : Type}.
Variable f : Conns.Conn → RequestHeader.t → Call.

(** [close(responseCh); return] *)
Definition close_and_return (rd : Reader R) (evs : list (event Call))
  : M (reader_status * Reader R * list (event Call)) :=
  match close_responseCh rd with
  | None => ret (Panicked, rd, evs)
  | Some rd' => ret (Exited, rd', evs)
  end.

(** [close(handshakeCh)] without a nil check: closing a nil channel and
    closing a closed channel both panic. *)
Definition close_handshakeCh_unguarded (rd : Reader R) : option (Reader R) :=
  match handshakeCh rd with
  | Some false =>
      Some (mkReader (delivered rd) (responseCh_closed rd) (Some true))
  | Some true | None => None
  end.

(** [func (s *Session) queryStream(...)], with the hand-over to a new
    goroutine after NOT_LEADER treated as in [commandStream]. *)
Fixpoint queryStream (script : list (recv R))
    (requestHeader : RequestHeader.t) (rd : Reader R)
  : M (reader_status * Reader R * list (event Call)) :=
  match script with
  | [] => ret (Reading, rd, [])
  | RecvErr _ :: _ => close_and_return rd []
  | Recv responseHeader response redial reopen :: rest =>
      match ResponseHeader.Type_ responseHeader with
      | ResponseType_OPEN_STREAM =>
          match close_handshakeCh_unguarded rd with
          | None => ret (Panicked, rd, [])
          | Some rd' => queryStream rest requestHeader rd'
          end
      | ResponseType_CLOSE_STREAM => close_and_return rd []
      | ResponseType_RESPONSE =>
          match ResponseHeader.Status responseHeader with
          | ResponseStatus_OK =>
              do_ recordResponse requestHeader responseHeader;
              match send response rd with
              | None => ret (Panicked, rd, [])
              | Some rd' => queryStream rest requestHeader rd'
              end
          | ResponseStatus_NOT_LEADER =>
              let leader := ResponseHeader.Leader responseHeader in
              do_ Reconnect leader;
              do c <- Connect redial;
              match c with
              | inr _ => close_and_return rd [EvReconnect leader]
              | inl conn =>
                  let evs := [EvReconnect leader;
                              EvCall (f conn requestHeader)] in
                  match reopen with
                  | Some _ => close_and_return rd evs
                  | None =>
                      traced evs
                        (queryStream rest requestHeader
                           (mkReader (delivered rd) (responseCh_closed rd)
                                     None))
                  end
              end
          | ResponseStatus_ERROR => close_and_return rd []
          | ResponseStatus_other _ => queryStream rest requestHeader rd
          end
      | ResponseType_other _ => queryStream rest requestHeader rd
      end
  end.
End QueryStream.

(* ===================================================================== *)
(** ** Opening a command stream *)

(** How the synchronous part of [doCommandStream] ends: with the error it
    returns, or with the stream and header it hands to the reader. *)
Inductive stream_opening : Type :=
| OpeningFailed (err : error)
| Opening (stream : loc) (requestHeader : RequestHeader.t).

(** [func (s *Session) doCommandStream(...)] up to the point where it
    starts the reader goroutine: connect, allocate the stream and its
    header, issue the opening RPC and, should that fail, close the
    stream. [dial] and [opening] are the environment's answers to
    [Connect] and to the RPC. *)
Definition doCommandStream_open {Call}
    (f : Conns.Conn → RequestHeader.t → Call) (name : Name.t)
    (dial opening : option error)
  : M (stream_opening * list (event Call)) :=
  do c <- Connect dial;
  match c with
  | inr err => ret (OpeningFailed err, [])
  | inl conn =>
      do x <- nextStreamHeader (Some (getName name));
      match opening with
      | Some err =>
          do_ Stream_Close x.1;
          ret (OpeningFailed err, [EvCall (f conn x.2)])
      | None => ret (Opening x.1 x.2, [EvCall (f conn x.2)])
      end
  end.

(* ===================================================================== *)
(** ** Session life cycle *)

(** The RPCs of the session service, as [open], [keepAlive] and [close]
    build them. *)
Inductive session_rpc : Type :=
| OpenSessionRequest (conn : Conns.Conn) (header : RequestHeader.t)
                     (timeout : Z)
| KeepAliveRequest (conn : Conns.Conn) (header : RequestHeader.t)
| CloseSessionRequest (conn : Conns.Conn) (header : RequestHeader.t).

(** [func (s *Session) open(ctx)]: the dispatch; the keep-alive goroutine
    it starts afterwards runs [keepAlive] at the ticks. The request reads
    [s.Timeout] when the closure runs. *)
Definition open {R} (script : list (attempt R))
  : M (outcome R * list (event session_rpc)) :=
  do timeout <- gets (λ w, Session.Timeout (session w));
  doSession (λ conn header, OpenSessionRequest conn header timeout) script.

(** [func (s *Session) keepAlive(ctx)] *)
Definition keepAlive {R} (script : list (attempt R))
  : M (outcome R * list (event session_rpc)) :=
  doSession KeepAliveRequest script.

(** [func (s *Session) close(ctx)] *)
Definition close {R} (script : list (attempt R))
  : M (outcome R * list (event session_rpc)) :=
  doSession CloseSessionRequest script.

(** [type sessionOptions struct] *)
Record sessionOptions : Type := mkOptions { id : string; timeout : Z }.

(** [SessionOption]: its one implementation, [sessionTimeoutOption]. *)
Inductive SessionOption : Type :=
| sessionTimeoutOption (timeout : Z).

(** [func WithSessionTimeout(timeout)] *)
Definition WithSessionTimeout (timeout : Z) : SessionOption :=
  sessionTimeoutOption timeout.

(** [func (o sessionTimeoutOption) prepare(options)] *)
Definition prepare (o : SessionOption) (options : sessionOptions)
  : sessionOptions :=
  match o with
  | sessionTimeoutOption t => mkOptions (id options) t
  end.

(** [for i := range opts { opts[i].prepare(options) }] *)
Definition prepare_all (opts : list SessionOption) (options : sessionOptions)
  : sessionOptions :=
  foldl (λ acc o, prepare o acc) options opts.

(** [30 * time.Second], in nanoseconds. *)
Definition default_timeout : Z := 30 * 1000000000.

(** [primitive.Partition] *)
Record Partition : Type := mkPartition {
  Partition_ID : Z;
  Partition_Address : net.Address
}.

Inductive NewSession_result : Type :=
| NewSession_panics        (* [time.NewTicker] with an interval <= 0 *)
| NewSession_error (err : error)
| NewSession_opening       (* [open] is still looping *)
| NewSession_ok (w : World) (tick : Z).

(** [func NewSession(ctx, partition, opts...)]. [uuid] is the fresh
    identifier drawn for the options; [tick] is the interval of the
    ticker, [options.timeout / 2] in Go's truncating division. *)
Definition NewSession {R} (uuid : string) (partition : Partition)
    (opts : list SessionOption) (script : list (attempt R))
  : NewSession_result :=
  let options := prepare_all opts (mkOptions uuid default_timeout) in
  let tick := Z.quot (timeout options) 2 in
  if decide (tick <= 0) then NewSession_panics
  else
    let w := NewSession_init (Partition_ID partition)
               (Partition_Address partition) (timeout options) in
    match open script w with
    | ((Returned _, _), w') => NewSession_ok w' tick
    | ((Failed err, _), _) => NewSession_error err
    | ((Spinning, _), _) => NewSession_opening
    end.

(** [func OpenSessions(partitions, opts...)] of the test utilities:
    [scripts] holds, per partition, the answers its [open] dispatch
    gets, [uuids] the identifiers drawn. A session that panics or never
    opens leaves the whole call without a result. *)
Fixpoint OpenSessions {R} (uuids : list string) (partitions : list Partition)
    (opts : list SessionOption) (scripts : list (list (attempt R)))
  : option (error + list World) :=
  match partitions with
  | [] => Some (inr [])
  | partition :: partitions' =>
      match NewSession (hd "" uuids) partition opts (hd [] scripts) with
      | NewSession_ok w _ =>
          match OpenSessions (tl uuids) partitions' opts (tl scripts) with
          | Some (inr sessions) => Some (inr (w :: sessions))
          | r => r
          end
      | NewSession_error err => Some (inl err)
      | NewSession_panics | NewSession_opening => None
      end
  end.

(* ===================================================================== *)
(** ** Sequences of dispatches *)

(** An operation a client runs to completion on the session, with the
    answers its dispatch gets. *)
Inductive operation (R : Type) : Type :=
| op_doCommand (name : Name.t) (script : list (attempt R))
| op_doQuery (name : Name.t) (script : list (attempt R))
| op_doPrimitive (name : Name.t) (script : list (attempt R))
| op_doSession (script : list (attempt R)).
Arguments op_doCommand {R} name script.
Arguments op_doQuery {R} name script.
Arguments op_doPrimitive {R} name script.
Arguments op_doSession {R} script.

Definition is_doCommand {R} (o : operation R) : bool :=
  match o with op_doCommand _ _ => true | _ => false end.

Definition run_operation {Call R}
    (f : Conns.Conn → RequestHeader.t → Call) (o : operation R)
  : M (outcome R * list (event Call)) :=
  match o with
  | op_doCommand name script => doCommand f name script
  | op_doQuery name script => doQuery f name script
  | op_doPrimitive name script => doPrimitive f name script
  | op_doSession script => doSession f script
  end.

Fixpoint run_operations {Call R}
    (f : Conns.Conn → RequestHeader.t → Call) (os : list (operation R))
  : M unit :=
  match os with
  | [] => ret tt
  | o :: os' => do_ run_operation f o; run_operations f os'
  end.

(** The headers of the attempts answered with a response. *)
Definition replies {R} (script : list (attempt R)) : list ResponseHeader.t :=
  omap (λ a, match answer a with
             | Replies h _ => Some h
             | CallFails _ => None
             end) script.

(** The number of commands among a sequence of operations. *)
Definition doCommands {R} (os : list (operation R)) : Z :=
  Z.of_nat (length (filter (λ o, is_doCommand o = true) os)).

(* ===================================================================== *)
(** ** The readers, one message at a time *)

(** How one turn of a reader's loop ends: the loop goes on with the
    channels as given, or the goroutine stops. *)
Inductive turn (R : Type) : Type :=
| GoOn (rd : Reader R)
| Stop (status : reader_status) (rd : Reader R).
Arguments GoOn {R} rd.
Arguments Stop {R} status rd.

Section ReaderTurns.
Context {Call R : Type}.
Variable f : Conns.Conn → RequestHeader.t → Call.

Definition stop_closing (stream : loc) (rd : Reader R)
    (evs : list (event Call)) : M (turn R * list (event Call)) :=
  match close_responseCh rd with
  | None => ret (Stop Panicked rd, evs)
  | Some rd' => do_ Stream_Close stream; ret (Stop Exited rd', evs)
  end.

(** The body of [commandStream]'s loop for one received message. *)
Definition commandStream_turn (m : recv R) (stream : loc)
    (requestHeader : RequestHeader.t) (rd : Reader R)
  : M (turn R * list (event Call)) :=
  match m with
  | RecvErr _ => stop_closing stream rd []
  | Recv responseHeader response redial reopen =>
      match ResponseHeader.Type_ responseHeader with
      | ResponseType_OPEN_STREAM =>
          do ok <- Serialize stream responseHeader;
          match close_handshakeCh ok rd with
          | None => ret (Stop Panicked rd, [])
          | Some rd' => ret (GoOn rd', [])
          end
      | ResponseType_CLOSE_STREAM =>
          do ok <- Serialize stream responseHeader;
          if ok then stop_closing stream rd [] else ret (GoOn rd, [])
      | ResponseType_RESPONSE =>
          match ResponseHeader.Status responseHeader with
          | ResponseStatus_OK =>
              do_ recordResponse requestHeader responseHeader;
              do ok <- Serialize stream responseHeader;
              if ok then
                match send response rd with
                | None => ret (Stop Panicked rd, [])
                | Some rd' => ret (GoOn rd', [])
                end
              else ret (GoOn rd, [])
          | ResponseStatus_NOT_LEADER =>
              let leader := ResponseHeader.Leader responseHeader in
              do_ Reconnect leader;
              do c <- Connect redial;
              match c with
              | inr _ => stop_closing stream rd [EvReconnect leader]
              | inl conn =>
                  let evs := [EvReconnect leader;
                              EvCall (f conn requestHeader)] in
                  match reopen with
                  | Some _ => stop_closing stream rd evs
                  | None =>
                      ret (GoOn (mkReader (delivered rd)
                                   (responseCh_closed rd) None), evs)
                  end
              end
          | ResponseStatus_ERROR => stop_closing stream rd []
          | ResponseStatus_other _ => ret (GoOn rd, [])
          end
      | ResponseType_other _ => ret (GoOn rd, [])
      end
  end.

Definition stop_returning (rd : Reader R) (evs : list (event Call))
  : M (turn R * list (event Call)) :=
  match close_responseCh rd with
  | None => ret (Stop Panicked rd, evs)
  | Some rd' => ret (Stop Exited rd', evs)
  end.

(** The body of [queryStream]'s loop for one received message. *)
Definition queryStream_turn (m : recv R)
    (requestHeader : RequestHeader.t) (rd : Reader R)
  : M (turn R * list (event Call)) :=
  match m with
  | RecvErr _ => stop_returning rd []
  | Recv responseHeader response redial reopen =>
      match ResponseHeader.Type_ responseHeader with
      | ResponseType_OPEN_STREAM =>
          match close_handshakeCh_unguarded rd with
          | None => ret (Stop Panicked rd, [])
          | Some rd' => ret (GoOn rd', [])
          end
      | ResponseType_CLOSE_STREAM => stop_returning rd []
      | ResponseType_RESPONSE =>
          match ResponseHeader.Status responseHeader with
          | ResponseStatus_OK =>
              do_ recordResponse requestHeader responseHeader;
              match send response rd with
              | None => ret (Stop Panicked rd, [])
              | Some rd' => ret (GoOn rd', [])
              end
          | ResponseStatus_NOT_LEADER =>
              let leader := ResponseHeader.Leader responseHeader in
              do_ Reconnect leader;
              do c <- Connect redial;
              match c with
              | inr _ => stop_returning rd [EvReconnect leader]
              | inl conn =>
                  let evs := [EvReconnect leader;
                              EvCall (f conn requestHeader)] in
                  match reopen with
                  | Some _ => stop_returning rd evs
                  | None =>
                      ret (GoOn (mkReader (delivered rd)
                                   (responseCh_closed rd) None), evs)
                  end
              end
          | ResponseStatus_ERROR => stop_returning rd []
          | ResponseStatus_other _ => ret (GoOn rd, [])
          end
      | ResponseType_other _ => ret (GoOn rd, [])
      end
  end.
End ReaderTurns.

(** The payload of a message if it is an OK response. *)
Definition ok_payload {R} (m : recv R) : list R :=
  match m with
  | Recv h r _ _ =>
      match ResponseHeader.Type_ h, ResponseHeader.Status h with
      | ResponseType_RESPONSE, ResponseStatus_OK => [r]
      | _, _ => []
      end
  | RecvErr _ => []
  end.

(** Every payload names the response id of the header it came with. *)
Definition carries_id {R} (rid : R → Z) (m : recv R) : Prop :=
  match m with
  | Recv h r _ _ => rid r = ResponseHeader.ResponseID h
  | RecvErr _ => True
  end.

(** The parts of a reader's result. *)
Definition final_status {Call R}
    (r : (reader_status * Reader R * list (event Call)) * World)
  : reader_status := r.1.1.1.
Definition final_reader {Call R}
    (r : (reader_status * Reader R * list (event Call)) * World)
  : Reader R := r.1.1.2.
Definition final_world {Call R}
    (r : (reader_status * Reader R * list (event Call)) * World)
  : World := r.2.

(** Concrete inputs for the readers: a session in which one command
    stream has been created, and stream messages. *)
Definition watch_world : World :=
  exec (nextStreamHeader None) (session_at 10 0 0).
Definition watch_stream : loc :=
  (eval (nextStreamHeader None) (session_at 10 0 0)).1.
Definition watch_header : RequestHeader.t :=
  (eval (nextStreamHeader None) (session_at 10 0 0)).2.

Definition open_stream_response (responseID : Z) : ResponseHeader.t :=
  ResponseHeader.mk ResponseStatus_OK ResponseType_OPEN_STREAM 1 0
    responseID "".
Definition close_stream_response (responseID : Z) : ResponseHeader.t :=
  ResponseHeader.mk ResponseStatus_OK ResponseType_CLOSE_STREAM 1 0
    responseID "".

Definition watch_script : list (recv Z) :=
  [Recv (open_stream_response 1) 1 None None;
   Recv (ok_response 11 2) 2 None None;
   Recv (ok_response 12 2) 2 None None;
   Recv (ok_response 13 4) 4 None None;
   Recv (ok_response 13 3) 3 None None;
   Recv (close_stream_response 4) 4 None None].

(** Every registered id is an allocated request id. *)
Definition registry_bounded (w : World) : Prop :=
  0 <= Session.requestID (session w)
  ∧ ∀ k p, Session.streams (session w) !! k = Some p →
           1 <= k <= Session.requestID (session w).

(* ===================================================================== *)
(** ** Leader election: the watch goroutine ([election.go]) *)

Module election.
(** [api.Term], with the fields [newTerm] reads. *)
Record api_Term : Type := mk_api_Term {
  api_ID : Z;
  api_Leader : string;
  api_Candidates : list string
}.

(** [type Term struct] *)
Record Term : Type := mkTerm {
  ID : Z;
  Leader : string;
  Candidates : list string
}.

(** [api.EventResponse_Type]: [Watch] only tells OPEN from the rest. *)
Inductive EventResponse_Type : Type :=
| EventResponse_OPEN
| EventResponse_other (code : Z).

(** [api.EventResponse]: [Term] is a pointer and may be nil. *)
Record EventResponse : Type := mkEventResponse {
  Type_ : EventResponse_Type;
  Term_ : option api_Term
}.

(** [type EventType string] and [EventChanged]. *)
Definition EventType : Type := string.
Definition EventChanged : EventType := "changed".

(** [type Event struct] *)
Record Event : Type := mkEvent {
  Event_Type : EventType;
  Event_Term : Term
}.

(** [func newTerm(term *api.Term) *Term] *)
Definition newTerm (term : option api_Term) : option Term :=
  match term with
  | None => None
  | Some t => Some (mkTerm (api_ID t) (api_Leader t) (api_Candidates t))
  end.

(** The goroutine [Watch] starts after the handshake:
    [for event := range stream] with [defer close(ch)]. [stream] lists
    what is received until the stream channel is closed. The result is
    what was sent on [ch] and whether the goroutine panicked: the
    dereference [*newTerm(response.Term)] panics on nil. The deferred
    [close(ch)] runs either way. *)
Fixpoint Watch_forward (stream : list EventResponse) : list Event * bool :=
  match stream with
  | [] => ([], false)
  | response :: rest =>
      match Type_ response with
      | EventResponse_OPEN => Watch_forward rest
      | EventResponse_other _ =>
          match newTerm (Term_ response) with
          | None => ([], true)
          | Some term =>
              let (sent, panicked) := Watch_forward rest in
              (mkEvent EventChanged term :: sent, panicked)
          end
      end
  end.

(** The terms of the events that are not handshake responses. *)
Definition changes (stream : list EventResponse) : list (option api_Term) :=
  omap (λ response,
          match Type_ response with
          | EventResponse_OPEN => None
          | EventResponse_other _ => Some (Term_ response)
          end) stream.
End election.



(* ===================================================================== *)
(** * Properties *)

Ltac run_monad :=
  unfold exec, eval, traced, bind, ret, gets, modify, on_session in *;
  simpl in *.

(** ** Machine arithmetic *)

Lemma uint64_small (z : Z) : 0 <= z < 2 ^ 64 → uint64 z = z.
Proof. intros H. unfold uint64. by apply Z.mod_small. Qed.

Lemma uint64_succ (z : Z) : 0 <= z < 2 ^ 64 - 1 → uint64 (z + 1) = z + 1.
Proof. intros H. apply uint64_small. lia. Qed.

(** ** [recordResponse] *)

Section RecordResponse.
Import Session.
Variables (rq : RequestHeader.t) (rs : ResponseHeader.t).

Lemma recordResponse_stale (s : t) :
  ResponseHeader.Index rs <= lastIndex s →
  recordResponse_session rq rs s = s.
Proof.
  intros H. unfold recordResponse_session.
  destruct (decide _); [lia | done].
Qed.

Lemma recordResponse_fresh_responseID (s : t) :
  ResponseHeader.Index rs > lastIndex s →
  responseID (recordResponse_session rq rs s)
  = Z.max (responseID s) (RequestHeader.RequestID rq).
Proof.
  intros H. unfold recordResponse_session, recordResponse_locked.
  repeat (destruct (decide _); simpl in *); lia.
Qed.

Lemma recordResponse_fresh_lastIndex (s : t) :
  ResponseHeader.Index rs > lastIndex s →
  lastIndex (recordResponse_session rq rs s)
  = if decide (ResponseHeader.SessionID rs > SessionID s)
    then Z.max (ResponseHeader.SessionID rs) (ResponseHeader.Index rs)
    else ResponseHeader.Index rs.
Proof.
  intros H. unfold recordResponse_session, recordResponse_locked.
  repeat (destruct (decide _); simpl in *); lia.
Qed.

Lemma recordResponse_lastIndex_mono (s : t) :
  lastIndex s <= lastIndex (recordResponse_session rq rs s).
Proof.
  destruct (decide (ResponseHeader.Index rs > lastIndex s)) as [H|H].
  - rewrite recordResponse_fresh_lastIndex by done.
    destruct (decide _); lia.
  - rewrite recordResponse_stale by lia. lia.
Qed.

(** The write-locked part on its own, as it runs when another response
    was recorded between the check under the read lock and the write
    lock: [lastIndex] is kept from going down as long as the response
    does not carry a session id above the session's. *)
Lemma recordResponse_locked_lastIndex_mono (s : t) :
  ResponseHeader.SessionID rs <= SessionID s →
  lastIndex s <= lastIndex (recordResponse_locked rq rs s).
Proof.
  intros H. unfold recordResponse_locked.
  repeat (destruct (decide _); simpl in *); lia.
Qed.

Lemma recordResponse_requestID (s : t) :
  requestID (recordResponse_session rq rs s) = requestID s.
Proof.
  unfold recordResponse_session, recordResponse_locked.
  repeat (destruct (decide _); simpl in *); done.
Qed.

Lemma recordResponse_streams (s : t) :
  streams (recordResponse_session rq rs s) = streams s.
Proof.
  unfold recordResponse_session, recordResponse_locked.
  repeat (destruct (decide _); simpl in *); done.
Qed.

Lemma recordResponse_conns (s : t) :
  conns (recordResponse_session rq rs s) = conns s.
Proof.
  unfold recordResponse_session, recordResponse_locked.
  repeat (destruct (decide _); simpl in *); done.
Qed.
End RecordResponse.

Lemma max_list_app (d : Z) (l1 l2 : list Z) :
  max_list d (l1 ++ l2) = max_list (max_list d l2) l1.
Proof. unfold max_list. by rewrite foldr_app. Qed.

Lemma max_list_max (d x : Z) (l : list Z) :
  max_list (Z.max d x) l = Z.max x (max_list d l).
Proof.
  induction l as [|y l IH]; simpl; [lia |].
  rewrite IH. lia.
Qed.

Lemma recordResponses_responseID
    (calls : list (RequestHeader.t * ResponseHeader.t)) (s : Session.t) :
  Session.responseID (recordResponses calls s)
  = max_list (Session.responseID s) (recorded_request_ids calls s).
Proof.
  revert s. induction calls as [|[rq rs] calls IH]; intros s; [done |].
  simpl. rewrite IH. destruct (decide _) as [H|H].
  - rewrite recordResponse_fresh_responseID by done. simpl.
    apply max_list_max.
  - by rewrite recordResponse_stale by lia.
Qed.

(** C1, as stated, fails: a command with request id 1 whose OK response
    carries index 10 reaches a session whose [lastIndex] is already 10 and
    whose [responseID] is 0; the request id exceeds [responseID], yet
    [recordResponse] leaves [responseID] at 0. *)
Lemma recordResponse_ignores_stale_index :
  RequestHeader.RequestID (request_with_id 1)
    > Session.responseID (session (session_at 10 1 0))
  ∧ Session.responseID
      (session (exec (recordResponse (request_with_id 1) (ok_response 10 0))
                     (session_at 10 1 0)))
    ≠ RequestHeader.RequestID (request_with_id 1).
Proof. split; [reflexivity | discriminate]. Qed.

Lemma recordResponse_static
    (rq : RequestHeader.t) (rs : ResponseHeader.t) (s : Session.t) :
  Session.Partition (recordResponse_session rq rs s) = Session.Partition s
  ∧ Session.Timeout (recordResponse_session rq rs s) = Session.Timeout s.
Proof.
  unfold recordResponse_session, recordResponse_locked.
  repeat (destruct (decide _); simpl in *); done.
Qed.

(** C1, amended: [recordResponse] leaves the session unchanged when the
    response index does not exceed [lastIndex], whatever the request id.
    When the index exceeds it, [responseID] becomes the larger of its old
    value and the request id, hence the request id whenever that is above
    [responseID]; the session id becomes the larger of its old value and
    the response's, [lastIndex] the response index (or the response's
    session id if that is newer and larger), and nothing else changes.
    Hence after any sequence of [recordResponse] calls [responseID] is
    the maximum of its initial value and the request ids of the calls
    whose response index exceeded [lastIndex] when they were recorded. *)
Theorem recordResponse_responseID_guarded
    (rq : RequestHeader.t) (rs : ResponseHeader.t) (w : World) :
  let s := session w in
  let w' := exec (recordResponse rq rs) w in
  (ResponseHeader.Index rs <= Session.lastIndex s → w' = w)
  ∧ (ResponseHeader.Index rs > Session.lastIndex s →
     Session.responseID (session w')
     = Z.max (Session.responseID s) (RequestHeader.RequestID rq)
     ∧ (RequestHeader.RequestID rq > Session.responseID s →
        Session.responseID (session w') = RequestHeader.RequestID rq)
     ∧ Session.SessionID (session w')
       = Z.max (Session.SessionID s) (ResponseHeader.SessionID rs)
     ∧ Session.lastIndex (session w')
       = (if decide (ResponseHeader.SessionID rs > Session.SessionID s)
          then Z.max (ResponseHeader.SessionID rs) (ResponseHeader.Index rs)
          else ResponseHeader.Index rs)
     ∧ Session.requestID (session w') = Session.requestID s
     ∧ Session.streams (session w') = Session.streams s
     ∧ Session.conns (session w') = Session.conns s
     ∧ Session.Partition (session w') = Session.Partition s
     ∧ Session.Timeout (session w') = Session.Timeout s
     ∧ heap w' = heap w)
  ∧ (∀ calls,
       Session.responseID (recordResponses calls s)
       = max_list (Session.responseID s) (recorded_request_ids calls s)).
Proof.
  intros s w'. subst s w'. unfold recordResponse. run_monad.
  split; [| split].
  - intros H. rewrite recordResponse_stale by done. by destruct w.
  - intros Hidx.
    pose proof (recordResponse_fresh_responseID rq rs (session w) Hidx) as HR.
    split; [done |]. split; [intros Hreq; rewrite HR; lia |].
    split.
    { unfold recordResponse_session, recordResponse_locked.
      repeat (destruct (decide _); simpl in *); lia. }
    split; [by apply recordResponse_fresh_lastIndex |].
    split; [apply recordResponse_requestID |].
    split; [apply recordResponse_streams |].
    split; [apply recordResponse_conns |].
    split; [apply recordResponse_static |].
    split; [apply recordResponse_static | done].
  - intros calls. apply recordResponses_responseID.
Qed.

Lemma recordResponse_responseID_guarded_witness :
  Session.responseID
    (session (exec (recordResponse (request_with_id 1) (ok_response 11 0))
                   (session_at 10 1 0))) = 1
  ∧ exec (recordResponse (request_with_id 0) (ok_response 10 0))
         (session_at 10 1 0)
    = session_at 10 1 0.
Proof.
  split.
  - apply (proj1 (proj2 (recordResponse_responseID_guarded
                           (request_with_id 1) (ok_response 11 0)
                           (session_at 10 1 0))));
      reflexivity.
  - apply (proj1 (recordResponse_responseID_guarded
                    (request_with_id 0) (ok_response 10 0)
                    (session_at 10 1 0))).
    by vm_compute.
Defined.

(** ** Header construction *)

Lemma getQueryHeader_eq (name : option Name.t) (w : World) :
  getQueryHeader name w
  = (RequestHeader.mk name (int32 (Session.Partition (session w)))
       (Session.SessionID (session w)) (Session.lastIndex (session w))
       (Session.requestID (session w)) [], w).
Proof. reflexivity. Qed.

Lemma nextCommandHeader_eq (name : option Name.t) (w : World) :
  nextCommandHeader name w
  = (RequestHeader.mk name (int32 (Session.Partition (session w)))
       (Session.SessionID (session w)) (Session.lastIndex (session w))
       (uint64 (Session.requestID (session w) + 1)) [],
     on_session (Session.set_requestID
                   (uint64 (Session.requestID (session w) + 1))) w).
Proof. reflexivity. Qed.

Lemma nextStreamHeader_eq (name : option Name.t) (w : World) :
  let id := uint64 (Session.requestID (session w) + 1) in
  let p := fresh (dom (heap w)) in
  nextStreamHeader name w
  = ((p, RequestHeader.mk name (int32 (Session.Partition (session w)))
           (Session.SessionID (session w)) (Session.lastIndex (session w))
           id []),
     mkWorld
       (Session.set_streams (<[id := p]> (Session.streams (session w)))
          (Session.set_requestID id (session w)))
       (<[p := Stream.mk id 0]> (heap w))).
Proof. reflexivity. Qed.

(** C2, as stated, fails: in a session that has allocated request id 1
    and recorded no response, the query header carries 1, the request
    counter, and not 0, the response watermark. *)
Lemma getQueryHeader_carries_request_counter :
  RequestHeader.RequestID (eval (getQueryHeader None) (session_at 10 1 0))
  ≠ Session.responseID (session (session_at 10 1 0)).
Proof. discriminate. Qed.

(** C2, amended: the query header is (name, partition, session_id,
    last_index, request_id) with no stream headers: its request_id field
    is the session's request counter, the id of the last command header
    allocated. *)
Theorem getQueryHeader_fields (name : option Name.t) (w : World) :
  eval (getQueryHeader name) w
  = RequestHeader.mk name (int32 (Session.Partition (session w)))
      (Session.SessionID (session w)) (Session.lastIndex (session w))
      (Session.requestID (session w)) []
  ∧ RequestHeader.RequestID (eval (getQueryHeader name) w)
    = Session.requestID (session w).
Proof. split; reflexivity. Qed.

(** ** Frame properties of the dispatch loop *)

Lemma Connect_sequence_state (d : option error) (w : World) :
  sequence_state (exec (Connect d) w) = sequence_state w.
Proof.
  unfold exec, Connect, Conns.Connect.
  destruct (Conns.conn _); [done |]. by destruct d.
Qed.

Lemma Connect_requestID (d : option error) (w : World) :
  Session.requestID (session (exec (Connect d) w))
  = Session.requestID (session w).
Proof.
  pose proof (Connect_sequence_state d w) as H.
  unfold sequence_state in H. by simplify_eq.
Qed.

Lemma doRequest_requestID {Call R} (rq : RequestHeader.t)
    (f : Conns.Conn → Call) (script : list (attempt R)) (w : World) :
  Session.requestID (session (exec (doRequest rq f script) w))
  = Session.requestID (session w).
Proof.
  revert w. induction script as [|a rest IH]; intros w; [done |].
  pose proof (Connect_requestID (dial a) w) as HC.
  unfold exec in *. simpl. unfold bind at 1.
  destruct (Connect (dial a) w) as [[conn|err] w1]; simpl in HC; [| done].
  destruct (answer a) as [e|h r].
  - unfold traced, bind, ret. specialize (IH w1).
    destruct (doRequest rq f rest w1) as [x w2]. simpl in *. congruence.
  - destruct (ResponseHeader.Status h).
    + unfold recordResponse. run_monad.
      by rewrite recordResponse_requestID.
    + unfold traced, Reconnect, bind, ret, modify.
      specialize (IH (on_session (λ s, Session.set_conns
        (Conns.Reconnect (ResponseHeader.Leader h) (Session.conns s)) s) w1)).
      destruct (doRequest rq f rest _) as [x w2]. simpl in *. congruence.
    + done.
    + unfold traced, bind, ret. specialize (IH w1).
      destruct (doRequest rq f rest w1) as [x w2]. simpl in *. congruence.
Qed.

(** C10: building a query header changes nothing: the world after
    [getQueryHeader] is the world before it, so are in particular the
    session id, the last index, both counters and the stream registry;
    and a whole query dispatch leaves the request counter where it was. *)
Theorem getQueryHeader_frame (name : option Name.t) (w : World) :
  exec (getQueryHeader name) w = w
  ∧ sequence_state (exec (getQueryHeader name) w) = sequence_state w
  ∧ (∀ (Call R : Type) (f : Conns.Conn → RequestHeader.t → Call)
       (n : Name.t) (script : list (attempt R)),
       Session.requestID (session (exec (doQuery f n script) w))
       = Session.requestID (session w)).
Proof.
  repeat split. intros Call R f n script.
  unfold doQuery, exec, bind. rewrite getQueryHeader_eq.
  apply doRequest_requestID.
Qed.

(** ** Sequences of method calls *)

Lemma Serialize_session (p : loc) (h : ResponseHeader.t) (w : World) :
  session (exec (Serialize p h) w) = session w.
Proof.
  unfold exec, Serialize. destruct (heap w !! p); [| done].
  by destruct (Stream.Serialize h t).
Qed.

Lemma invoke_lastIndex (m : method) (w : World) :
  Session.lastIndex (session w)
  <= Session.lastIndex (session (exec (invoke m) w)).
Proof.
  destruct m; try (unfold exec; simpl; lia).
  - unfold invoke, recordResponse. run_monad.
    apply recordResponse_lastIndex_mono.
  - unfold invoke, exec, bind, ret.
    pose proof (Serialize_session stream responseHeader w) as H.
    unfold exec in H. destruct (Serialize stream responseHeader w).
    simpl in *. rewrite H. lia.
Qed.

Lemma invoke_requestID (m : method) (w : World) :
  let n := Session.requestID (session w) in
  Session.requestID (session (exec (invoke m) w))
  = (if is_command m then uint64 (n + 1) else n)
  ∧ eval (invoke m) w = (if is_command m then [uint64 (n + 1)] else []).
Proof.
  destruct m; try (split; reflexivity).
  - unfold invoke, recordResponse. run_monad.
    by rewrite recordResponse_requestID.
  - unfold invoke, exec, eval, bind, ret.
    pose proof (Serialize_session stream responseHeader w) as H.
    unfold exec in H. destruct (Serialize stream responseHeader w).
    simpl in *. by rewrite H.
Qed.

Lemma invoke_all_cons (m : method) (ms : list method) (w : World) :
  invoke_all (m :: ms) w
  = (eval (invoke m) w ++ eval (invoke_all ms) (exec (invoke m) w),
     exec (invoke_all ms) (exec (invoke m) w)).
Proof.
  simpl. unfold bind, ret, eval, exec.
  destruct (invoke m w) as [ids w1]. simpl.
  by destruct (invoke_all ms w1).
Qed.

Lemma invoke_all_lastIndex (ms : list method) (w : World) :
  Session.lastIndex (session w)
  <= Session.lastIndex (session (exec (invoke_all ms) w)).
Proof.
  revert w. induction ms as [|m ms IH]; intros w.
  - unfold exec; simpl. lia.
  - unfold exec. rewrite invoke_all_cons. simpl.
    etrans; [apply (invoke_lastIndex m) | apply IH].
Qed.

Lemma commands_cons (m : method) (ms : list method) :
  commands (m :: ms) = (if is_command m then 1 else 0) + commands ms.
Proof.
  unfold commands. rewrite filter_cons.
  destruct (is_command m); simpl; try case_decide; simpl; try done; lia.
Qed.

Lemma invoke_all_request_ids (ms : list method) (w : World) :
  let n := Session.requestID (session w) in
  0 <= n → n + commands ms < 2 ^ 64 →
  eval (invoke_all ms) w = seqZ (n + 1) (commands ms)
  ∧ Session.requestID (session (exec (invoke_all ms) w)) = n + commands ms.
Proof.
  revert w. induction ms as [|m ms IH]; intros w n Hn Hk.
  - unfold eval, exec, commands. simpl. split; [done | lia].
  - rewrite commands_cons in *.
    assert (0 <= commands ms) by (unfold commands; lia).
    unfold eval, exec. rewrite invoke_all_cons. simpl.
    destruct (invoke_requestID m w) as [Hr He]. fold n in Hr, He.
    specialize (IH (exec (invoke m) w)). simpl in IH. rewrite Hr, He in *.
    destruct (is_command m).
    + rewrite uint64_succ in * by lia.
      destruct IH as [IH1 IH2]; [lia | lia |]. rewrite IH1, IH2.
      split; [| lia].
      rewrite (seqZ_cons (n + 1)) by lia. simpl. f_equal. f_equal; lia.
    + destruct IH as [IH1 IH2]; [lia | lia |]. rewrite IH1, IH2.
      split; [done | lia].
Qed.

(** C6: [recordResponse] never lowers [lastIndex], the initialisation
    branch included (there [lastIndex] ends as the larger of the response's
    session id and index, both above the old value); so it never goes down
    along any sequence of [recordResponse] calls, nor along any sequence
    of session methods. *)
Theorem recordResponse_lastIndex_nondecreasing
    (rq : RequestHeader.t) (rs : ResponseHeader.t) (w : World) :
  Session.lastIndex (session w)
  <= Session.lastIndex (session (exec (recordResponse rq rs) w))
  ∧ (∀ calls,
       Session.lastIndex (session w)
       <= Session.lastIndex (recordResponses calls (session w)))
  ∧ (∀ ms,
       Session.lastIndex (session w)
       <= Session.lastIndex (session (exec (invoke_all ms) w))).
Proof.
  split; [| split].
  - unfold recordResponse. run_monad. apply recordResponse_lastIndex_mono.
  - intros calls. generalize (session w). clear.
    induction calls as [|[rq rs] calls IH]; intros s; simpl; [lia |].
    etrans; [apply (recordResponse_lastIndex_mono rq rs) | apply IH].
  - intros ms. apply invoke_all_lastIndex.
Qed.

(** C7: a command header and a command-stream header each advance
    [requestID] by one (in [uint64]) and carry the advanced value; query
    headers, state headers and [recordResponse] leave [requestID] alone;
    hence, from a session whose counter is 0, the request ids emitted
    along any sequence of method calls are 1, 2, ..., k, where k is the
    number of command and command-stream headers built (below [2^64],
    where a [uint64] counter wraps). *)
Theorem command_request_ids_consecutive (ms : list method) (w : World) :
  Session.requestID (session w) = 0 →
  commands ms < 2 ^ 64 →
  eval (invoke_all ms) w = seqZ 1 (commands ms)
  ∧ Session.requestID (session (exec (invoke_all ms) w)) = commands ms
  ∧ (∀ name w0,
       0 <= Session.requestID (session w0) < 2 ^ 64 - 1 →
       RequestHeader.RequestID (eval (nextCommandHeader name) w0)
       = Session.requestID (session w0) + 1
       ∧ Session.requestID (session (exec (nextCommandHeader name) w0))
         = Session.requestID (session w0) + 1
       ∧ RequestHeader.RequestID (eval (nextStreamHeader name) w0).2
         = Session.requestID (session w0) + 1
       ∧ Session.requestID (session (exec (nextStreamHeader name) w0))
         = Session.requestID (session w0) + 1)
  ∧ (∀ name rq rs w0,
       Session.requestID (session (exec (getQueryHeader name) w0))
       = Session.requestID (session w0)
       ∧ Session.requestID (session (exec (getState name) w0))
         = Session.requestID (session w0)
       ∧ Session.requestID (session (exec (recordResponse rq rs) w0))
         = Session.requestID (session w0)).
Proof.
  intros H0 Hk.
  destruct (invoke_all_request_ids ms w) as [H1 H2]; [lia | lia |].
  rewrite H0 in H1, H2.
  split; [done |]. split; [by rewrite H2 |]. split.
  - intros name w0 Hr.
    unfold exec, eval. rewrite nextCommandHeader_eq, nextStreamHeader_eq.
    simpl. by rewrite uint64_succ.
  - intros name rq rs w0. repeat split.
    unfold recordResponse. run_monad. apply recordResponse_requestID.
Qed.

Lemma command_request_ids_consecutive_witness :
  eval (invoke_all [call_nextCommandHeader None;
                    call_getQueryHeader None;
                    call_nextStreamHeader None;
                    call_recordResponse (request_with_id 1)
                                        (ok_response 11 0);
                    call_getState None;
                    call_nextCommandHeader None])
       (NewSession_init 1 "addr1" 30000000000)
  = [1; 2; 3].
Proof.
  apply (command_request_ids_consecutive
           [call_nextCommandHeader None;
            call_getQueryHeader None;
            call_nextStreamHeader None;
            call_recordResponse (request_with_id 1) (ok_response 11 0);
            call_getState None;
            call_nextCommandHeader None]
           (NewSession_init 1 "addr1" 30000000000)); reflexivity.
Defined.

(** ** The stream registry *)

Lemma elem_of_getStreamHeaders (hd : StreamHeader.t) (w : World) :
  hd ∈ getStreamHeaders w
  ↔ ∃ id p stream,
      Session.streams (session w) !! id = Some p
      ∧ heap w !! p = Some stream
      ∧ Stream.ID stream <= Session.responseID (session w)
      ∧ hd = StreamHeader.mk (Stream.ID stream) (Stream.responseID stream).
Proof.
  unfold getStreamHeaders. rewrite list_elem_of_bind. split.
  - intros [[id p] [Hin Hreg]]. apply elem_of_map_to_list in Hreg.
    unfold stream_header_of in Hin. simpl in Hin.
    destruct (heap w !! p) as [stream|] eqn:Hp;
      [| by apply elem_of_nil in Hin].
    destruct (decide _) as [Hle|Hgt]; [| by apply elem_of_nil in Hin].
    apply list_elem_of_singleton in Hin. by exists id, p, stream.
  - intros (id & p & stream & Hreg & Hp & Hle & ->).
    exists (id, p). split; [| by apply elem_of_map_to_list].
    unfold stream_header_of. simpl. rewrite Hp.
    destruct (decide _); [| done]. by apply list_elem_of_singleton.
Qed.

Lemma registry_wf_init (partitionID : Z) (address : net.Address) (t : Z) :
  registry_wf (NewSession_init partitionID address t).
Proof. intros id p H. simpl in H. by rewrite lookup_empty in H. Qed.

Lemma registry_wf_invoke (m : method) (w : World) :
  registry_wf w → registry_wf (exec (invoke m) w).
Proof.
  intros Hwf. destruct m; try exact Hwf.
  - (* nextStreamHeader *)
    unfold exec, invoke, bind. rewrite nextStreamHeader_eq. simpl.
    intros id p. simpl.
    set (k := uint64 (Session.requestID (session w) + 1)).
    set (q := fresh (dom (heap w))).
    assert (heap w !! q = None) as Hq
      by (apply not_elem_of_dom, is_fresh).
    rewrite lookup_insert. case_decide as Hk.
    + intros [= <-]. subst id. rewrite lookup_insert_eq. by eexists.
    + intros Hreg. destruct (Hwf id p Hreg) as (stream & Hp & Hid).
      exists stream. split; [| done].
      rewrite lookup_insert_ne; [done |]. congruence.
  - (* recordResponse *)
    unfold invoke, recordResponse. run_monad. intros id p. simpl.
    rewrite recordResponse_streams. apply Hwf.
  - (* deleteStream *)
    intros id p. unfold exec; simpl. rewrite lookup_delete.
    case_decide; [done |]. apply Hwf.
  - (* Serialize *)
    unfold exec, invoke, bind, ret, Serialize. intros id p.
    destruct (heap w !! stream) as [obj|] eqn:Hobj; [| apply Hwf].
    destruct (Stream.Serialize responseHeader obj) as [ok obj'] eqn:HS.
    assert (Stream.ID obj' = Stream.ID obj) as HID.
    { unfold Stream.Serialize in HS. destruct (decide _); by simplify_eq. }
    simpl. intros Hreg. destruct (Hwf id p Hreg) as (st & Hp & Hid).
    rewrite lookup_insert. case_decide as Hs.
    + subst p. simplify_eq. by eexists.
    + by exists st.
Qed.

Lemma registry_wf_invoke_all (ms : list method) (w : World) :
  registry_wf w → registry_wf (exec (invoke_all ms) w).
Proof.
  revert w. induction ms as [|m ms IH]; intros w Hwf; [done |].
  unfold exec. rewrite invoke_all_cons. simpl.
  by apply IH, registry_wf_invoke.
Qed.

(** C5: the state header carries the session id, the last index and the
    response watermark, and its stream list is the snapshot of the
    registry: a header is in it exactly when it is the
    (stream id, last response id) of a registered stream whose id is at
    most the session's [responseID]. In any session built by the methods
    from a new one, the id of a stream is the key it is registered under,
    and a deleted key contributes nothing. *)
Theorem getState_stream_snapshot
    (name : option Name.t) (hd : StreamHeader.t) (w : World) :
  (hd ∈ RequestHeader.Streams (eval (getState name) w)
   ↔ ∃ id p stream,
       Session.streams (session w) !! id = Some p
       ∧ heap w !! p = Some stream
       ∧ Stream.ID stream <= Session.responseID (session w)
       ∧ hd = StreamHeader.mk (Stream.ID stream)
                              (Stream.responseID stream))
  ∧ exec (getState name) w = w
  ∧ RequestHeader.RequestID (eval (getState name) w)
    = Session.responseID (session w)
  ∧ (∀ ms partitionID address timeout,
       w = exec (invoke_all ms)
                (NewSession_init partitionID address timeout) →
       hd ∈ RequestHeader.Streams (eval (getState name) w)
       ↔ ∃ p stream,
           Session.streams (session w) !! StreamHeader.StreamID hd = Some p
           ∧ heap w !! p = Some stream
           ∧ StreamHeader.StreamID hd <= Session.responseID (session w)
           ∧ StreamHeader.ResponseID hd = Stream.responseID stream).
Proof.
  split; [apply elem_of_getStreamHeaders |].
  split; [done |]. split; [done |].
  intros ms partitionID address timeout Hw.
  assert (registry_wf w) as Hwf
    by (subst w; apply registry_wf_invoke_all, registry_wf_init).
  change (RequestHeader.Streams (eval (getState name) w))
    with (getStreamHeaders w).
  rewrite elem_of_getStreamHeaders. split.
  - intros (id & p & stream & Hreg & Hp & Hle & ->). simpl.
    destruct (Hwf id p Hreg) as (st & Hp' & Hid).
    rewrite Hp in Hp'. injection Hp' as <-. subst id.
    by exists p, stream.
  - intros (p & stream & Hreg & Hp & Hle & Hr).
    destruct (Hwf _ p Hreg) as (st & Hp' & Hid).
    rewrite Hp in Hp'. injection Hp' as <-.
    exists (StreamHeader.StreamID hd), p, stream.
    repeat split; try done; [lia |].
    destruct hd; simpl in *. congruence.
Qed.

(** ** Stream serialisation and the command-stream reader *)

Lemma Stream_Serialize_accepts (h : ResponseHeader.t) (st : Stream.t) :
  ResponseHeader.ResponseID h = uint64 (Stream.responseID st + 1) →
  Stream.Serialize h st
  = (true, Stream.mk (Stream.ID st) (uint64 (Stream.responseID st + 1))).
Proof. intros H. unfold Stream.Serialize. by destruct (decide _). Qed.

Lemma Stream_Serialize_rejects (h : ResponseHeader.t) (st : Stream.t) :
  ResponseHeader.ResponseID h ≠ uint64 (Stream.responseID st + 1) →
  Stream.Serialize h st = (false, st).
Proof. intros H. unfold Stream.Serialize. by destruct (decide _). Qed.

Section ReaderProperties.
Context {Call R : Type}.
Variable f : Conns.Conn → RequestHeader.t → Call.


End ReaderProperties.

(** ** The dispatch loop *)

Lemma traced_eq {Call A} (evs : list (event Call))
    (m : M (A * list (event Call))) (w : World) :
  traced evs m w = (((m w).1.1, evs ++ (m w).1.2), (m w).2).
Proof. unfold traced, bind, ret. by destruct (m w) as [[x tr] w']. Qed.

Section DoRequest.
Context {Call R : Type}.
Variables (rq : RequestHeader.t) (f : Conns.Conn → Call).

Lemma doRequest_cons (a : attempt R) (rest : list (attempt R)) (w : World) :
  doRequest rq f (a :: rest) w
  = match Connect (dial a) w with
    | (inr err, w1) => ((Failed err, []), w1)
    | (inl conn, w1) =>
        match answer a with
        | CallFails _ => traced [EvCall (f conn)] (doRequest rq f rest) w1
        | Replies h r =>
            match ResponseHeader.Status h with
            | ResponseStatus_OK =>
                ((Returned r, [EvCall (f conn)]),
                 exec (recordResponse rq h) w1)
            | ResponseStatus_NOT_LEADER =>
                traced [EvCall (f conn);
                        EvReconnect (ResponseHeader.Leader h)]
                  (doRequest rq f rest)
                  (exec (Reconnect (ResponseHeader.Leader h)) w1)
            | ResponseStatus_ERROR =>
                ((Failed unknown_error, [EvCall (f conn)]), w1)
            | ResponseStatus_other _ =>
                traced [EvCall (f conn)] (doRequest rq f rest) w1
            end
        end
    end.
Proof.
  simpl. unfold bind at 1.
  destruct (Connect (dial a) w) as [[conn|err] w1]; [| done].
  destruct (answer a) as [e|h r]; [done |].
  by destruct (ResponseHeader.Status h).
Qed.

(** Answers after which the loop is still running extend with further
    answers. *)
Lemma doRequest_app (pre post : list (attempt R)) (w w1 : World)
    (tr : list (event Call)) :
  doRequest rq f pre w = ((Spinning, tr), w1) →
  doRequest rq f (pre ++ post) w = traced tr (doRequest rq f post) w1.
Proof.
  revert w tr. induction pre as [|a pre IH]; intros w tr Hpre.
  - simpl in Hpre. unfold ret in Hpre. simplify_eq.
    rewrite traced_eq. simpl. by destruct (doRequest rq f post w1) as [[??]?].
  - rewrite <- app_comm_cons, doRequest_cons.
    rewrite doRequest_cons in Hpre.
    destruct (Connect (dial a) w) as [[conn|err] w0]; [| done].
    destruct (answer a) as [e|h r].
    + rewrite traced_eq in Hpre.
      destruct (doRequest rq f pre w0) as [[o tr0] w0'] eqn:E.
      simpl in Hpre. simplify_eq.
      rewrite !traced_eq, (IH _ _ E), traced_eq. simpl.
      by rewrite <- ?app_assoc.
    + destruct (ResponseHeader.Status h); try done.
      * rewrite traced_eq in Hpre.
        destruct (doRequest rq f pre _) as [[o tr0] w0'] eqn:E.
        simpl in Hpre. simplify_eq.
        rewrite !traced_eq, (IH _ _ E), traced_eq. simpl.
        by rewrite <- ?app_assoc.
      * rewrite traced_eq in Hpre.
        destruct (doRequest rq f pre w0) as [[o tr0] w0'] eqn:E.
        simpl in Hpre. simplify_eq.
        rewrite !traced_eq, (IH _ _ E), traced_eq. simpl.
        by rewrite <- ?app_assoc.
Qed.

(** Every invocation in a dispatch is one of the same closure. *)
Lemma doRequest_calls (script : list (attempt R)) (w : World) :
  Forall (λ c, ∃ conn, c = f conn)
         (calls_of (eval (doRequest rq f script) w).2).
Proof.
  revert w. induction script as [|a rest IH]; intros w.
  - constructor.
  - unfold eval. rewrite doRequest_cons.
    destruct (Connect (dial a) w) as [[conn|err] w1]; [| constructor].
    assert (∀ w', Forall (λ c, ∃ conn, c = f conn)
              (calls_of (traced [EvCall (f conn)]
                           (doRequest rq f rest) w').1.2)) as Hstep.
    { intros w'. rewrite traced_eq. simpl.
      constructor; [by eexists | apply IH]. }
    destruct (answer a) as [e|h r]; [apply Hstep |].
    destruct (ResponseHeader.Status h); try apply Hstep.
    + simpl. constructor; [by eexists | constructor].
    + rewrite traced_eq. simpl. constructor; [by eexists | apply IH].
    + simpl. constructor; [by eexists | constructor].
Qed.

(** Unless it returns a response, a dispatch leaves the sequencing
    state as it found it: [recordResponse] has not run. *)
Lemma doRequest_unreturned_frame (script : list (attempt R)) (w : World) :
  (∀ r, (eval (doRequest rq f script) w).1 ≠ Returned r) →
  sequence_state (exec (doRequest rq f script) w) = sequence_state w.
Proof.
  revert w. induction script as [|a rest IH]; intros w Hnr; [done |].
  unfold exec, eval in *. rewrite doRequest_cons in *.
  pose proof (Connect_sequence_state (dial a) w) as HC. unfold exec in HC.
  destruct (Connect (dial a) w) as [[conn|err] w1]; simpl in HC; [| done].
  destruct (answer a) as [e|h r].
  - rewrite traced_eq in *. simpl in *. rewrite IH; done.
  - destruct (ResponseHeader.Status h).
    + by destruct (Hnr r).
    + rewrite traced_eq in *. simpl in *. rewrite IH; done.
    + done.
    + rewrite traced_eq in *. simpl in *. rewrite IH; done.
Qed.
End DoRequest.

(** C4: when an attempt is answered NOT_LEADER, [doRequest] calls
    [Reconnect] with the leader of the response header, which rebinds the
    pool and touches nothing else, and goes round the loop again with the
    same request header and the same closure; every invocation in a
    dispatch is thus of that one closure, and for a command every attempt
    carries the header built once by [nextCommandHeader], hence the same
    request id. *)
Theorem doRequest_not_leader_retries {Call R : Type}
    (rq : RequestHeader.t) (f : Conns.Conn → Call)
    (a : attempt R) (rest : list (attempt R)) (w w1 : World)
    (conn : Conns.Conn) (h : ResponseHeader.t) (r : R) :
  Connect (dial a) w = (inl conn, w1) →
  answer a = Replies h r →
  ResponseHeader.Status h = ResponseStatus_NOT_LEADER →
  doRequest rq f (a :: rest) w
  = traced [EvCall (f conn); EvReconnect (ResponseHeader.Leader h)]
      (doRequest rq f rest)
      (exec (Reconnect (ResponseHeader.Leader h)) w1)
  ∧ Session.conns (session (exec (Reconnect (ResponseHeader.Leader h)) w1))
    = Conns.mk (ResponseHeader.Leader h) None
  ∧ eval (Connect None) (exec (Reconnect (ResponseHeader.Leader h)) w1)
    = inl (ResponseHeader.Leader h)
  ∧ sequence_state (exec (Reconnect (ResponseHeader.Leader h)) w1)
    = sequence_state w
  ∧ (∀ (script : list (attempt R)) w0,
       Forall (λ c, ∃ conn', c = f conn')
              (calls_of (eval (doRequest rq f script) w0).2))
  ∧ (∀ (g : Conns.Conn → RequestHeader.t → Call) name
       (script : list (attempt R)) w0,
       let header := eval (nextCommandHeader (Some (getName name))) w0 in
       RequestHeader.RequestID header
       = uint64 (Session.requestID (session w0) + 1)
       ∧ Forall (λ c, ∃ conn', c = g conn' header)
                (calls_of (eval (doCommand g name script) w0).2)).
Proof.
  intros HC Ha HS. repeat split.
  - by rewrite doRequest_cons, HC, Ha, HS.
  - pose proof (Connect_sequence_state (dial a) w) as E.
    unfold exec in E. rewrite HC in E. simpl in E. by rewrite <- E.
  - apply doRequest_calls.
  - unfold doCommand, eval, bind. rewrite nextCommandHeader_eq.
    apply (doRequest_calls _ (λ conn', g conn' _)).
Qed.

Lemma doRequest_not_leader_retries_witness :
  (doRequest (request_with_id 1) (λ conn, (conn, request_with_id 1))
     [Attempt None (Replies (not_leader_response "addr2") "stale");
      Attempt None (Replies (ok_response 11 0) "done")]
     (session_at 10 1 0)).1
  = (Returned "done",
     [EvCall ("addr1", request_with_id 1);
      EvReconnect "addr2";
      EvCall ("addr2", request_with_id 1)]).
Proof.
  rewrite (proj1 (doRequest_not_leader_retries
                    (request_with_id 1) (λ conn, (conn, request_with_id 1))
                    (Attempt None (Replies (not_leader_response "addr2")
                                           "stale"))
                    [Attempt None (Replies (ok_response 11 0) "done")]
                    (session_at 10 1 0)
                    (exec (Connect None) (session_at 10 1 0))
                    "addr1" (not_leader_response "addr2") "stale"
                    eq_refl eq_refl eq_refl)).
  reflexivity.
Defined.

(** C8: when an attempt is answered ERROR, [doRequest] returns the error
    "an unknown error occurred" at once: whatever further answers the
    environment holds are not asked for, the trace ends with that call,
    and the sequencing state (session id, last index, request counter,
    response id, stream registry and stream objects) is what it was when
    the dispatch began, whatever retries came before. For a command this
    is the state right after its header was allocated. *)
Theorem doRequest_error_returns {Call R : Type}
    (rq : RequestHeader.t) (f : Conns.Conn → Call)
    (pre post : list (attempt R)) (a : attempt R) (w w1 w2 : World)
    (tr : list (event Call)) (conn : Conns.Conn)
    (h : ResponseHeader.t) (r : R) :
  doRequest rq f pre w = ((Spinning, tr), w1) →
  Connect (dial a) w1 = (inl conn, w2) →
  answer a = Replies h r →
  ResponseHeader.Status h = ResponseStatus_ERROR →
  doRequest rq f (pre ++ a :: post) w
  = ((Failed unknown_error, tr ++ [EvCall (f conn)]), w2)
  ∧ sequence_state w2 = sequence_state w
  ∧ (∀ (g : Conns.Conn → RequestHeader.t → Call) name
       (script : list (attempt R)) w0 e,
       (eval (doCommand g name script) w0).1 = Failed e →
       sequence_state (exec (doCommand g name script) w0)
       = sequence_state (exec (nextCommandHeader (Some (getName name))) w0)).
Proof.
  intros Hpre HC Ha HS.
  assert (doRequest rq f (pre ++ a :: post) w
          = ((Failed unknown_error, tr ++ [EvCall (f conn)]), w2)) as Hrun.
  { rewrite (doRequest_app rq f pre (a :: post) w w1 tr Hpre).
    by rewrite traced_eq, doRequest_cons, HC, Ha, HS. }
  split; [done |]. split.
  - pose proof (doRequest_unreturned_frame rq f (pre ++ a :: post) w) as E.
    unfold exec, eval in E. rewrite Hrun in E. simpl in E. by apply E.
  - intros g name script w0 e. unfold doCommand, eval, exec, bind.
    rewrite nextCommandHeader_eq. cbv beta iota. intros He.
    apply (doRequest_unreturned_frame _ (λ conn', g conn' _)).
    intros r' Hr.
    assert (@Failed R e = Returned r') as Habs
      by (etrans; [symmetry; exact He | exact Hr]).
    done.
Qed.

Lemma doRequest_error_returns_witness :
  doRequest (request_with_id 1) (λ conn, (conn, request_with_id 1))
    ([Attempt None (CallFails "unavailable");
      Attempt None (Replies (not_leader_response "addr2") "stale")]
     ++ Attempt None (Replies error_response "none")
        :: [Attempt None (Replies (ok_response 11 0) "done")])
    (session_at 10 1 0)
  = ((Failed unknown_error,
      [EvCall ("addr1", request_with_id 1);
       EvCall ("addr1", request_with_id 1);
       EvReconnect "addr2"]
      ++ [EvCall ("addr2", request_with_id 1)]),
     on_session (Session.set_conns (Conns.mk "addr2" (Some "addr2")))
       (session_at 10 1 0)).
Proof.
  apply (doRequest_error_returns
           (request_with_id 1) (λ conn, (conn, request_with_id 1))
           [Attempt None (CallFails "unavailable");
            Attempt None (Replies (not_leader_response "addr2") "stale")]
           [Attempt None (Replies (ok_response 11 0) "done")]
           (Attempt None (Replies error_response "none"))
           (session_at 10 1 0)
           (on_session (Session.set_conns (Conns.mk "addr2" None))
              (session_at 10 1 0))
           (on_session (Session.set_conns (Conns.mk "addr2" (Some "addr2")))
              (session_at 10 1 0))
           _ "addr2" error_response "none");
    reflexivity.
Defined.

Lemma getState_stream_snapshot_witness :
  StreamHeader.mk 1 1
  ∈ RequestHeader.Streams
      (eval (getState None)
         (exec (invoke_all
                  [call_nextStreamHeader None;
                   call_recordResponse (request_with_id 1) (ok_response 11 0);
                   call_Serialize 1%positive (ok_response 11 1)])
               (NewSession_init 1 "addr1" 30000000000))).
Proof.
  apply (proj2 (proj2 (proj2 (proj2
           (getState_stream_snapshot None (StreamHeader.mk 1 1)
              (exec (invoke_all
                  [call_nextStreamHeader None;
                   call_recordResponse (request_with_id 1) (ok_response 11 0);
                   call_Serialize 1%positive (ok_response 11 1)])
               (NewSession_init 1 "addr1" 30000000000)))))
           _ 1 "addr1" 30000000000 eq_refl)).
  exists 1%positive, (Stream.mk 1 1). repeat split; vm_compute; congruence.
Defined.

(* ===================================================================== *)
(** * Further properties of the session *)

(** ** Invariants along any sequence of method calls *)

(** Apart from [recordResponse], no method writes the session id, the
    last index or the response id. *)
Lemma invoke_watermarks (m : method) (w : World) :
  (∃ rq rs, m = call_recordResponse rq rs
            ∧ session (exec (invoke m) w)
              = recordResponse_session rq rs (session w))
  ∨ (Session.SessionID (session (exec (invoke m) w))
     = Session.SessionID (session w)
     ∧ Session.lastIndex (session (exec (invoke m) w))
       = Session.lastIndex (session w)
     ∧ Session.responseID (session (exec (invoke m) w))
       = Session.responseID (session w)).
Proof.
  destruct m; try (right; repeat split; reflexivity).
  - left. by eexists _, _.
  - right. unfold invoke, exec, bind, ret.
    pose proof (Serialize_session stream responseHeader w) as H.
    unfold exec in H. destruct (Serialize stream responseHeader w).
    simpl in *. by rewrite H.
Qed.

Lemma recordResponse_SessionID_mono
    (rq : RequestHeader.t) (rs : ResponseHeader.t) (s : Session.t) :
  Session.SessionID s
  <= Session.SessionID (recordResponse_session rq rs s).
Proof.
  unfold recordResponse_session, recordResponse_locked.
  repeat (destruct (decide _); simpl in *); lia.
Qed.

Lemma recordResponse_responseID_mono
    (rq : RequestHeader.t) (rs : ResponseHeader.t) (s : Session.t) :
  Session.responseID s
  <= Session.responseID (recordResponse_session rq rs s).
Proof.
  unfold recordResponse_session, recordResponse_locked.
  repeat (destruct (decide _); simpl in *); lia.
Qed.

Lemma recordResponse_SessionID_le_lastIndex
    (rq : RequestHeader.t) (rs : ResponseHeader.t) (s : Session.t) :
  Session.SessionID s <= Session.lastIndex s →
  Session.SessionID (recordResponse_session rq rs s)
  <= Session.lastIndex (recordResponse_session rq rs s).
Proof.
  unfold recordResponse_session, recordResponse_locked.
  repeat (destruct (decide _); simpl in *); lia.
Qed.

(** Induction over a sequence of method calls for a property of the
    world that each single call preserves. *)
Lemma invoke_all_preserves (P : World → Prop) :
  (∀ m w, P w → P (exec (invoke m) w)) →
  ∀ ms w, P w → P (exec (invoke_all ms) w).
Proof.
  intros Hstep ms. induction ms as [|m ms IH]; intros w Hw; [done |].
  unfold exec. rewrite invoke_all_cons. simpl. by apply IH, Hstep.
Qed.

(** X1. In every session reached from a new one by the session's
    methods, each registered pointer is allocated, the stream it points
    to has the id it is registered under, and no stream is registered
    under two ids. *)
Theorem registry_consistent (ms : list method)
    (partitionID : Z) (address : net.Address) (t : Z) :
  let w := exec (invoke_all ms) (NewSession_init partitionID address t) in
  registry_wf w
  ∧ ∀ id1 id2 p,
      Session.streams (session w) !! id1 = Some p →
      Session.streams (session w) !! id2 = Some p →
      id1 = id2.
Proof.
  intros w.
  assert (registry_wf w) as Hwf.
  { apply (invoke_all_preserves registry_wf registry_wf_invoke).
    apply registry_wf_init. }
  split; [done |]. intros id1 id2 p H1 H2.
  destruct (Hwf id1 p H1) as (s1 & Hp1 & <-).
  destruct (Hwf id2 p H2) as (s2 & Hp2 & <-). congruence.
Qed.

(** X2. The session id never exceeds the last index: it holds in a new
    session and every method keeps it, whatever headers [recordResponse]
    is given. *)
Theorem SessionID_le_lastIndex (ms : list method)
    (partitionID : Z) (address : net.Address) (t : Z) :
  let w := exec (invoke_all ms) (NewSession_init partitionID address t) in
  Session.SessionID (session w) <= Session.lastIndex (session w).
Proof.
  apply (invoke_all_preserves
           (λ w, Session.SessionID (session w)
                 <= Session.lastIndex (session w))); [| done].
  intros m w Hw. destruct (invoke_watermarks m w) as [(rq & rs & -> & E)|E].
  - rewrite E. by apply recordResponse_SessionID_le_lastIndex.
  - destruct E as (-> & -> & _). done.
Qed.

(** X3. Along any sequence of method calls, from any state, neither the
    session id nor the response id ever goes down. *)
Theorem SessionID_responseID_nondecreasing (ms : list method) (w : World) :
  Session.SessionID (session w)
  <= Session.SessionID (session (exec (invoke_all ms) w))
  ∧ Session.responseID (session w)
    <= Session.responseID (session (exec (invoke_all ms) w)).
Proof.
  apply (invoke_all_preserves
           (λ w', Session.SessionID (session w)
                  <= Session.SessionID (session w')
                  ∧ Session.responseID (session w)
                    <= Session.responseID (session w'))); [| lia].
  intros m w' [H1 H2].
  destruct (invoke_watermarks m w') as [(rq & rs & -> & E)|E].
  - rewrite E.
    pose proof (recordResponse_SessionID_mono rq rs (session w')).
    pose proof (recordResponse_responseID_mono rq rs (session w')). lia.
  - destruct E as (-> & _ & ->). done.
Qed.

(** ** What a dispatch does to the session *)

Lemma recordResponse_sequence_state
    (rq : RequestHeader.t) (rs : ResponseHeader.t) (w1 w2 : World) :
  sequence_state w1 = sequence_state w2 →
  sequence_state (exec (recordResponse rq rs) w1)
  = sequence_state (exec (recordResponse rq rs) w2).
Proof.
  destruct w1 as [[? ? ? ? ? ? ? ?] ?], w2 as [[? ? ? ? ? ? ? ?] ?].
  unfold sequence_state, exec, recordResponse, modify, on_session.
  simpl. intros ?; simplify_eq.
  unfold recordResponse_session, recordResponse_locked. simpl.
  repeat (destruct (decide _); simpl in *); try done; try lia.
Qed.

Lemma Reconnect_sequence_state (a : net.Address) (w : World) :
  sequence_state (exec (Reconnect a) w) = sequence_state w.
Proof. done. Qed.

Section DoRequestEffect.
Context {Call R : Type}.
Variables (rq : RequestHeader.t) (f : Conns.Conn → Call).

(** A dispatch that returns a response has recorded exactly one
    response, an OK one among the scripted answers, and done nothing
    else to the sequencing state. *)
Lemma doRequest_returned_effect (script : list (attempt R)) (w : World)
    (r : R) :
  (eval (doRequest rq f script) w).1 = Returned r →
  ∃ h, h ∈ replies script
       ∧ ResponseHeader.Status h = ResponseStatus_OK
       ∧ sequence_state (exec (doRequest rq f script) w)
         = sequence_state (exec (recordResponse rq h) w).
Proof.
  revert w. induction script as [|a rest IH]; intros w; [done |].
  unfold exec, eval in *. rewrite doRequest_cons.
  pose proof (Connect_sequence_state (dial a) w) as HC. unfold exec in HC.
  destruct (Connect (dial a) w) as [[conn|err] w1]; simpl in HC; [| done].
  assert (∀ w2, sequence_state w2 = sequence_state w →
            ((doRequest rq f rest w2).1).1 = Returned r →
            ∃ h, h ∈ replies rest
                 ∧ ResponseHeader.Status h = ResponseStatus_OK
                 ∧ sequence_state (doRequest rq f rest w2).2
                   = sequence_state (recordResponse rq h w).2) as Hrec.
  { intros w2 E Hr. destruct (IH w2 Hr) as (h & Hin & HS & Hst).
    exists h. repeat split; try done. rewrite Hst.
    by apply recordResponse_sequence_state. }
  unfold replies. simpl.
  destruct (answer a) as [e|h resp] eqn:Ha.
  - rewrite traced_eq. simpl. intros Hr.
    destruct (Hrec w1 HC Hr) as (h & Hin & HS & Hst). eauto.
  - destruct (ResponseHeader.Status h) eqn:HS.
    + simpl. intros [= <-]. exists h. split; [by left |].
      split; [done |]. by apply recordResponse_sequence_state.
    + rewrite traced_eq. simpl. intros Hr.
      destruct (Hrec _ (eq_trans (Reconnect_sequence_state _ w1) HC) Hr)
        as (h' & Hin & HS' & Hst).
      exists h'. split; [by right | done].
    + done.
    + rewrite traced_eq. simpl. intros Hr.
      destruct (Hrec w1 HC Hr) as (h' & Hin & HS' & Hst).
      exists h'. split; [by right | done].
Qed.

(** Whatever the outcome, the sequencing state after a dispatch is the
    one before it, or that with one response recorded. *)
Lemma doRequest_effect (script : list (attempt R)) (w : World) :
  sequence_state (exec (doRequest rq f script) w) = sequence_state w
  ∨ ∃ h, h ∈ replies script
         ∧ ResponseHeader.Status h = ResponseStatus_OK
         ∧ sequence_state (exec (doRequest rq f script) w)
           = sequence_state (exec (recordResponse rq h) w).
Proof.
  destruct ((eval (doRequest rq f script) w).1) as [r|e|] eqn:E.
  - right. by apply (doRequest_returned_effect script w r).
  - left. apply doRequest_unreturned_frame. intros r. by rewrite E.
  - left. apply doRequest_unreturned_frame. intros r. by rewrite E.
Qed.
End DoRequestEffect.

Lemma sequence_state_fields (w1 w2 : World) :
  sequence_state w1 = sequence_state w2 →
  Session.SessionID (session w1) = Session.SessionID (session w2)
  ∧ Session.lastIndex (session w1) = Session.lastIndex (session w2)
  ∧ Session.requestID (session w1) = Session.requestID (session w2)
  ∧ Session.responseID (session w1) = Session.responseID (session w2)
  ∧ Session.streams (session w1) = Session.streams (session w2)
  ∧ heap w1 = heap w2.
Proof. unfold sequence_state. intros ?; by simplify_eq. Qed.

(** X4. A dispatch that returns a response has recorded exactly one
    response: some OK reply among the answers it got; apart from that
    (and the connection pool) the session and the stream objects are as
    before the dispatch. *)
Theorem doRequest_records_once {Call R : Type}
    (rq : RequestHeader.t) (f : Conns.Conn → Call)
    (script : list (attempt R)) (w : World) (r : R) :
  (eval (doRequest rq f script) w).1 = Returned r →
  ∃ h, h ∈ replies script
       ∧ ResponseHeader.Status h = ResponseStatus_OK
       ∧ sequence_state (exec (doRequest rq f script) w)
         = sequence_state (exec (recordResponse rq h) w).
Proof. apply doRequest_returned_effect. Qed.

Lemma doRequest_records_once_witness :
  ∃ h, h ∈ replies
             [Attempt None (Replies (not_leader_response "addr2") "stale");
              Attempt None (Replies (ok_response 11 0) "done")]
       ∧ ResponseHeader.Status h = ResponseStatus_OK
       ∧ sequence_state
           (exec (doRequest (request_with_id 1)
                    (λ conn, (conn, request_with_id 1))
                    [Attempt None
                       (Replies (not_leader_response "addr2") "stale");
                     Attempt None (Replies (ok_response 11 0) "done")])
                 (session_at 10 1 0))
         = sequence_state
             (exec (recordResponse (request_with_id 1) h)
                   (session_at 10 1 0)).
Proof.
  apply (doRequest_records_once (request_with_id 1)
           (λ conn, (conn, request_with_id 1))
           [Attempt None (Replies (not_leader_response "addr2") "stale");
            Attempt None (Replies (ok_response 11 0) "done")]
           (session_at 10 1 0) "done").
  reflexivity.
Defined.

Lemma recordResponse_responseID_bounds
    (rq : RequestHeader.t) (rs : ResponseHeader.t) (s : Session.t) :
  Session.responseID (recordResponse_session rq rs s) = Session.responseID s
  ∨ (ResponseHeader.Index rs > Session.lastIndex s
     ∧ Session.responseID (recordResponse_session rq rs s)
       = Z.max (Session.responseID s) (RequestHeader.RequestID rq)).
Proof.
  destruct (decide (ResponseHeader.Index rs > Session.lastIndex s)).
  - right. split; [done |]. by apply recordResponse_fresh_responseID.
  - left. by rewrite recordResponse_stale by lia.
Qed.

Lemma doRequest_responseID_bounds {Call R : Type}
    (rq : RequestHeader.t) (f : Conns.Conn → Call)
    (script : list (attempt R)) (w : World) :
  Session.responseID (session w)
  <= Session.responseID (session (exec (doRequest rq f script) w))
  <= Z.max (Session.responseID (session w)) (RequestHeader.RequestID rq).
Proof.
  destruct (doRequest_effect rq f script w) as [E|(h & _ & _ & E)];
    apply sequence_state_fields in E as (_ & _ & _ & -> & _).
  - lia.
  - unfold exec, recordResponse, modify, on_session. simpl.
    destruct (recordResponse_responseID_bounds rq h (session w))
      as [->|[_ ->]]; lia.
Qed.

(** The four dispatching operations, each as the header it builds
    followed by [doRequest]. *)
Lemma run_operation_eq {Call R : Type}
    (f : Conns.Conn → RequestHeader.t → Call) (o : operation R) (w : World) :
  ∃ (m : M RequestHeader.t) (script : list (attempt R)),
    run_operation f o w
    = doRequest (eval m w) (λ conn, f conn (eval m w)) script (exec m w)
    ∧ (is_doCommand o = true →
       ∃ name, m = nextCommandHeader name)
    ∧ (is_doCommand o = false →
       (∃ name, m = getQueryHeader name) ∨ (∃ name, m = getState name)).
Proof.
  destruct o as [name script|name script|name script|script]; simpl.
  - exists (nextCommandHeader (Some (getName name))), script.
    split; [| split; [by eexists | done]].
    unfold doCommand, bind, eval, exec.
    by destruct (nextCommandHeader _ w).
  - exists (getQueryHeader (Some (getName name))), script.
    split; [done | split; [done | left; by eexists]].
  - exists (getState (Some (Name.mk (Name.Name name) (Name.Namespace name)))),
      script.
    split; [done | split; [done | right; by eexists]].
  - exists (getState None), script.
    split; [done | split; [done | right; by eexists]].
Qed.

Lemma run_operation_counters {Call R : Type}
    (f : Conns.Conn → RequestHeader.t → Call) (o : operation R) (w : World) :
  let w' := exec (run_operation f o) w in
  Session.requestID (session w')
  = (if is_doCommand o then uint64 (Session.requestID (session w) + 1)
     else Session.requestID (session w))
  ∧ Session.responseID (session w) <= Session.responseID (session w')
  ∧ Session.responseID (session w')
    <= Z.max (Session.responseID (session w))
             (Session.requestID (session w')).
Proof.
  intros w'. subst w'.
  destruct (run_operation_eq f o w) as (m & script & E & Hc & Hq).
  pose proof (doRequest_requestID (eval m w) (λ conn, f conn (eval m w))
                script (exec m w)) as HR.
  pose proof (doRequest_responseID_bounds (eval m w)
                (λ conn, f conn (eval m w)) script (exec m w)) as HB.
  unfold exec, eval in *. rewrite E, HR.
  destruct (is_doCommand o).
  - destruct Hc as [name ->]; [done |].
    rewrite nextCommandHeader_eq in *. simpl in *. split; [done | lia].
  - destruct Hq as [[name ->]|[name ->]]; [done | | ];
      simpl in *; split; try done; lia.
Qed.

Lemma run_operations_cons {Call R : Type}
    (f : Conns.Conn → RequestHeader.t → Call)
    (o : operation R) (os : list (operation R)) (w : World) :
  exec (run_operations f (o :: os)) w
  = exec (run_operations f os) (exec (run_operation f o) w).
Proof.
  unfold exec. simpl. unfold bind. by destruct (run_operation f o w).
Qed.

Lemma doCommands_cons {R} (o : operation R) (os : list (operation R)) :
  doCommands (o :: os) = (if is_doCommand o then 1 else 0) + doCommands os.
Proof.
  unfold doCommands. rewrite filter_cons.
  destruct (is_doCommand o); simpl; try case_decide; simpl; try done; lia.
Qed.

(** X5. Of the dispatching operations only [doCommand] moves the request
    counter, and it moves it by one whatever the outcome of the dispatch:
    a failed command has consumed its request id all the same. *)
Theorem operations_request_counter {Call R : Type}
    (f : Conns.Conn → RequestHeader.t → Call)
    (o : operation R) (w : World) :
  Session.requestID (session (exec (run_operation f o) w))
  = (if is_doCommand o then uint64 (Session.requestID (session w) + 1)
     else Session.requestID (session w)).
Proof. apply run_operation_counters. Qed.

(** X6. A command whose connection attempt fails is never sent: the
    dispatch returns the connection error without invoking the closure;
    its request id is consumed nevertheless, and nothing else in the
    session changes. *)
Theorem doCommand_connect_failure {Call R : Type}
    (f : Conns.Conn → RequestHeader.t → Call) (name : Name.t)
    (a : attempt R) (rest : list (attempt R)) (w : World) (e : error) :
  Conns.conn (Session.conns (session w)) = None →
  dial a = Some e →
  doCommand f name (a :: rest) w
  = ((Failed e, []),
     on_session (Session.set_requestID
                   (uint64 (Session.requestID (session w) + 1))) w).
Proof.
  intros Hc Hd. unfold doCommand, bind. rewrite nextCommandHeader_eq.
  rewrite doRequest_cons. unfold Connect, Conns.Connect. simpl.
  rewrite Hc, Hd. unfold on_session. simpl.
  by destruct w as [[? ? ? [? ?] ? ? ? ?] ?].
Qed.

Lemma doCommand_connect_failure_witness :
  doCommand (λ conn header, (conn, header)) (Name.mk "test" "default")
    (Attempt (Some "connection refused") (Replies (ok_response 11 0) "done")
     :: [])
    (session_at 10 0 0)
  = ((Failed "connection refused", []),
     on_session (Session.set_requestID (uint64 (0 + 1))) (session_at 10 0 0)).
Proof.
  apply (doCommand_connect_failure (λ conn header, (conn, header))
           (Name.mk "test" "default")
           (Attempt (Some "connection refused")
                    (Replies (ok_response 11 0) "done"))
           [] (session_at 10 0 0) "connection refused"); reflexivity.
Defined.

(** X7. The session-level dispatches ([open], [keepAlive], [close],
    [doPrimitive], all through a state header) never move the response
    id or the request counter, whatever the answers. *)
Theorem session_rpcs_keep_counters {Call R : Type}
    (f : Conns.Conn → RequestHeader.t → Call) (name : Name.t)
    (script : list (attempt R)) (w : World) :
  let same w' :=
    Session.responseID (session w') = Session.responseID (session w)
    ∧ Session.requestID (session w') = Session.requestID (session w) in
  same (exec (open script) w)
  ∧ same (exec (keepAlive script) w)
  ∧ same (exec (close script) w)
  ∧ same (exec (doSession f script) w)
  ∧ same (exec (doPrimitive f name script) w).
Proof.
  assert (∀ (C : Type) (g : Conns.Conn → RequestHeader.t → C) o,
            Session.responseID
              (session (exec (doRequest (eval (getState o) w)
                                (λ conn, g conn (eval (getState o) w))
                                script) w))
            = Session.responseID (session w)
            ∧ Session.requestID
                (session (exec (doRequest (eval (getState o) w)
                                  (λ conn, g conn (eval (getState o) w))
                                  script) w))
              = Session.requestID (session w)) as H.
  { intros C g o. split; [| apply doRequest_requestID].
    pose proof (doRequest_responseID_bounds (eval (getState o) w)
                  (λ conn, g conn (eval (getState o) w)) script w) as HB.
    simpl in HB. lia. }
  simpl. repeat split; apply H.
Qed.

(** X8. A query that returns has recorded one OK reply; if that reply's
    index is above the last index, the response id becomes the larger of
    its old value and the request counter, since a query header carries
    the request counter; otherwise it is unchanged. *)
Theorem doQuery_moves_responseID {Call R : Type}
    (f : Conns.Conn → RequestHeader.t → Call) (name : Name.t)
    (script : list (attempt R)) (w : World) (r : R) :
  (eval (doQuery f name script) w).1 = Returned r →
  ∃ h, h ∈ replies script
       ∧ ResponseHeader.Status h = ResponseStatus_OK
       ∧ Session.responseID (session (exec (doQuery f name script) w))
         = (if decide (ResponseHeader.Index h > Session.lastIndex (session w))
            then Z.max (Session.responseID (session w))
                       (Session.requestID (session w))
            else Session.responseID (session w)).
Proof.
  unfold doQuery, eval, exec, bind. rewrite getQueryHeader_eq. intros Hr.
  destruct (doRequest_returned_effect _ _ script w r Hr)
    as (h & Hin & HS & E).
  exists h. split; [done |]. split; [done |].
  apply sequence_state_fields in E as (_ & _ & _ & E & _).
  unfold exec in E. rewrite E.
  unfold recordResponse, modify, on_session. simpl.
  destruct (decide _).
  - by rewrite recordResponse_fresh_responseID.
  - by rewrite recordResponse_stale by lia.
Qed.

Lemma doQuery_moves_responseID_witness :
  ∃ h, h ∈ replies [Attempt None (Replies (ok_response 11 0) "value")]
       ∧ ResponseHeader.Status h = ResponseStatus_OK
       ∧ Session.responseID
           (session (exec (doQuery (λ conn header, (conn, header))
                             (Name.mk "test" "default")
                             [Attempt None
                                (Replies (ok_response 11 0) "value")])
                          (session_at 10 3 1)))
         = (if decide (ResponseHeader.Index h
                       > Session.lastIndex (session (session_at 10 3 1)))
            then Z.max (Session.responseID (session (session_at 10 3 1)))
                       (Session.requestID (session (session_at 10 3 1)))
            else Session.responseID (session (session_at 10 3 1))).
Proof.
  apply (doQuery_moves_responseID (λ conn header, (conn, header))
           (Name.mk "test" "default")
           [Attempt None (Replies (ok_response 11 0) "value")]
           (session_at 10 3 1) "value").
  reflexivity.
Defined.

(** X9. The response id never exceeds the request counter: any sequence
    of commands, queries and session-level dispatches, with any answers
    to each, keeps [responseID <= requestID], as long as the request
    counter does not wrap. *)
Theorem responseID_le_requestID {Call R : Type}
    (f : Conns.Conn → RequestHeader.t → Call)
    (os : list (operation R)) (w : World) :
  0 <= Session.requestID (session w) →
  Session.requestID (session w) + doCommands os < 2 ^ 64 →
  Session.responseID (session w) <= Session.requestID (session w) →
  Session.responseID (session (exec (run_operations f os) w))
  <= Session.requestID (session (exec (run_operations f os) w))
  ∧ Session.requestID (session (exec (run_operations f os) w))
    = Session.requestID (session w) + doCommands os.
Proof.
  revert w. induction os as [|o os IH]; intros w H0 Hk Hle.
  - unfold exec, doCommands. simpl. lia.
  - rewrite run_operations_cons. rewrite doCommands_cons in *.
    assert (0 <= doCommands os) by (unfold doCommands; lia).
    destruct (run_operation_counters f o w) as (Hr & Hlo & Hhi).
    destruct (is_doCommand o).
    + rewrite uint64_succ in Hr by lia.
      destruct (IH (exec (run_operation f o) w)) as [IH1 IH2]; lia.
    + destruct (IH (exec (run_operation f o) w)) as [IH1 IH2]; lia.
Qed.

Lemma responseID_le_requestID_witness :
  Session.responseID
    (session (exec (run_operations (λ conn header, (conn, header))
                      [op_doCommand (Name.mk "test" "default")
                         [Attempt None (Replies error_response "none")];
                       op_doQuery (Name.mk "test" "default")
                         [Attempt None (Replies (ok_response 11 0) "v")];
                       op_doSession
                         [Attempt None (Replies (ok_response 12 0) "k")]])
                   (session_at 10 0 0)))
  <= Session.requestID
       (session (exec (run_operations (λ conn header, (conn, header))
                         [op_doCommand (Name.mk "test" "default")
                            [Attempt None (Replies error_response "none")];
                          op_doQuery (Name.mk "test" "default")
                            [Attempt None (Replies (ok_response 11 0) "v")];
                          op_doSession
                            [Attempt None (Replies (ok_response 12 0) "k")]])
                      (session_at 10 0 0))).
Proof.
  apply (responseID_le_requestID (λ conn header, (conn, header))
           [op_doCommand (Name.mk "test" "default")
              [Attempt None (Replies error_response "none")];
            op_doQuery (Name.mk "test" "default")
              [Attempt None (Replies (ok_response 11 0) "v")];
            op_doSession
              [Attempt None (Replies (ok_response 12 0) "k")]]
           (session_at 10 0 0)); vm_compute; congruence.
Defined.

(** ** The readers *)

Lemma traced_nil {Call A} (m : M (A * list (event Call))) (w : World) :
  traced [] m w = m w.
Proof. rewrite traced_eq. simpl. by destruct (m w) as [[? ?] ?]. Qed.

Section ReaderLoops.
Context {Call R : Type}.
Variable f : Conns.Conn → RequestHeader.t → Call.

(** [commandStream] is its loop body, turn after turn. *)
Lemma commandStream_cons (m : recv R) (rest : list (recv R)) (stream : loc)
    (rq : RequestHeader.t) (rd : Reader R) (w : World) :
  commandStream f (m :: rest) stream rq rd w
  = match commandStream_turn f m stream rq rd w with
    | ((GoOn rd1, evs), w1) =>
        traced evs (commandStream f rest stream rq rd1) w1
    | ((Stop st rd1, evs), w1) => ((st, rd1, evs), w1)
    end.
Proof.
  destruct m as [e|h r d o]; simpl.
  - unfold close_and_exit, stop_closing.
    destruct (close_responseCh rd); [| done].
    unfold bind, ret. by destruct (Stream_Close stream w).
  - destruct (ResponseHeader.Type_ h).
    + destruct (ResponseHeader.Status h).
      * unfold bind at 1 3. destruct (recordResponse rq h w) as [[] w1].
        unfold bind. destruct (Serialize stream h w1) as [[|] w2].
        -- destruct (send r rd); [| done]. unfold ret. by rewrite traced_nil.
        -- unfold ret. by rewrite traced_nil.
      * unfold bind at 1 3. destruct (Reconnect _ w) as [[] w1].
        unfold bind at 1 2. destruct (Connect d w1) as [[conn|err] w2].
        -- destruct o; [| done].
           unfold close_and_exit, stop_closing.
           destruct (close_responseCh rd); [| done].
           unfold bind, ret. by destruct (Stream_Close stream w2).
        -- unfold close_and_exit, stop_closing.
           destruct (close_responseCh rd); [| done].
           unfold bind, ret. by destruct (Stream_Close stream w2).
      * unfold close_and_exit, stop_closing.
        destruct (close_responseCh rd); [| done].
        unfold bind, ret. by destruct (Stream_Close stream w).
      * unfold ret. by rewrite traced_nil.
    + unfold bind. destruct (Serialize stream h w) as [ok w1].
      destruct (close_handshakeCh ok rd); [| done].
      unfold ret. by rewrite traced_nil.
    + unfold bind at 1 2. destruct (Serialize stream h w) as [[|] w1].
      * unfold close_and_exit, stop_closing.
        destruct (close_responseCh rd); [| done].
        unfold bind, ret. by destruct (Stream_Close stream w1).
      * unfold ret. by rewrite traced_nil.
    + unfold ret. by rewrite traced_nil.
Qed.

(** [queryStream] is its loop body, turn after turn. *)
Lemma queryStream_cons (m : recv R) (rest : list (recv R))
    (rq : RequestHeader.t) (rd : Reader R) (w : World) :
  queryStream f (m :: rest) rq rd w
  = match queryStream_turn f m rq rd w with
    | ((GoOn rd1, evs), w1) => traced evs (queryStream f rest rq rd1) w1
    | ((Stop st rd1, evs), w1) => ((st, rd1, evs), w1)
    end.
Proof.
  destruct m as [e|h r d o]; simpl.
  - unfold close_and_return, stop_returning.
    by destruct (close_responseCh rd).
  - destruct (ResponseHeader.Type_ h).
    + destruct (ResponseHeader.Status h).
      * unfold bind. destruct (recordResponse rq h w) as [[] w1].
        destruct (send r rd); [| done]. unfold ret. by rewrite traced_nil.
      * unfold bind at 1 3. destruct (Reconnect _ w) as [[] w1].
        unfold bind. destruct (Connect d w1) as [[conn|err] w2].
        -- destruct o; [| done].
           unfold close_and_return, stop_returning.
           by destruct (close_responseCh rd).
        -- unfold close_and_return, stop_returning.
           by destruct (close_responseCh rd).
      * unfold close_and_return, stop_returning.
        by destruct (close_responseCh rd).
      * unfold ret. by rewrite traced_nil.
    + destruct (close_handshakeCh_unguarded rd); [| done].
      unfold ret. by rewrite traced_nil.
    + unfold close_and_return, stop_returning.
      by destruct (close_responseCh rd).
    + unfold ret. by rewrite traced_nil.
Qed.
End ReaderLoops.

Section CommandStreamTurn.
Context {Call R : Type}.
Variable f : Conns.Conn → RequestHeader.t → Call.

(** What one turn of [commandStream] does, for a reader holding an
    allocated stream and an open response channel. *)
Lemma commandStream_turn_spec (m : recv R) (stream : loc)
    (rq : RequestHeader.t) (rd : Reader R) (w : World) (obj : Stream.t) :
  heap w !! stream = Some obj →
  responseCh_closed rd = false →
  ∃ x evs w1 obj1,
    commandStream_turn f m stream rq rd w = ((x, evs), w1)
    ∧ heap w1 !! stream = Some obj1
    ∧ Stream.ID obj1 = Stream.ID obj
    ∧ (∀ p, p ≠ stream → heap w1 !! p = heap w !! p)
    ∧ Session.requestID (session w1) = Session.requestID (session w)
    ∧ (Stream.responseID obj1 = Stream.responseID obj
       ∨ Stream.responseID obj1 = uint64 (Stream.responseID obj + 1))
    ∧ match x with
      | GoOn rd1 =>
          responseCh_closed rd1 = false
          ∧ Session.streams (session w1) = Session.streams (session w)
          ∧ (handshakeCh rd = None → handshakeCh rd1 = None)
          ∧ ((delivered rd1 = delivered rd
              ∧ Stream.responseID obj1 = Stream.responseID obj)
             ∨ (delivered rd1 = delivered rd
                ∧ ok_payload m = [])
             ∨ ∃ h r d o,
                 m = Recv h r d o
                 ∧ ok_payload m = [r]
                 ∧ delivered rd1 = delivered rd ++ [r]
                 ∧ ResponseHeader.ResponseID h = Stream.responseID obj1
                 ∧ Stream.responseID obj1
                   = uint64 (Stream.responseID obj + 1))
      | Stop Exited rd1 =>
          responseCh_closed rd1 = true
          ∧ delivered rd1 = delivered rd
          ∧ Session.streams (session w1)
            = delete (Stream.ID obj) (Session.streams (session w))
      | Stop Panicked rd1 =>
          rd1 = rd
          ∧ Session.streams (session w1) = Session.streams (session w)
          ∧ handshakeCh rd = Some true
      | Stop Reading _ => False
      end.
Proof.
  intros Hobj Hopen.
  assert (∀ (evs : list (event Call)) w0 o0,
            heap w0 !! stream = Some o0 → Stream.ID o0 = Stream.ID obj →
            (∀ p, p ≠ stream → heap w0 !! p = heap w !! p) →
            Session.requestID (session w0) = Session.requestID (session w) →
            Session.streams (session w0) = Session.streams (session w) →
            (Stream.responseID o0 = Stream.responseID obj
             ∨ Stream.responseID o0 = uint64 (Stream.responseID obj + 1)) →
            ∃ x evs' w1 obj1,
              stop_closing stream rd evs w0 = ((x, evs'), w1)
              ∧ heap w1 !! stream = Some obj1
              ∧ Stream.ID obj1 = Stream.ID obj
              ∧ (∀ p, p ≠ stream → heap w1 !! p = heap w !! p)
              ∧ Session.requestID (session w1)
                = Session.requestID (session w)
              ∧ (Stream.responseID obj1 = Stream.responseID obj
                 ∨ Stream.responseID obj1
                   = uint64 (Stream.responseID obj + 1))
              ∧ match x with
                | Stop Exited rd1 =>
                    responseCh_closed rd1 = true
                    ∧ delivered rd1 = delivered rd
                    ∧ Session.streams (session w1)
                      = delete (Stream.ID obj) (Session.streams (session w))
                | _ => False
                end) as Hstop.
  { intros evs w0 o0 H0 HID Hoth Hrq Hst Hrid.
    unfold stop_closing, close_responseCh. rewrite Hopen.
    unfold bind, ret, Stream_Close. rewrite H0.
    unfold deleteStream, modify, on_session. simpl.
    eexists _, _, _, o0. split; [reflexivity |]. simpl.
    rewrite HID, Hst. by repeat split. }
  destruct m as [e|h r d o].
  - simpl. destruct (Hstop [] w obj Hobj) as (x & evs & w1 & obj1 & E & H);
      try done; [by left |].
    exists x, evs, w1, obj1. split; [done |].
    destruct H as (? & ? & ? & ? & ? & Hx). repeat split; try done.
    by destruct x as [|[]].
  - unfold commandStream_turn.
    destruct (ResponseHeader.Type_ h) eqn:HT.
    + destruct (ResponseHeader.Status h) eqn:HS.
      * (* OK response *)
        unfold bind, recordResponse, modify, on_session, Serialize. simpl.
        rewrite Hobj. unfold Stream.Serialize.
        destruct (decide _) as [Hid|Hid]; simpl.
        -- unfold send. rewrite Hopen. unfold ret.
           eexists _, _, _, _. split; [reflexivity |]. simpl.
           rewrite lookup_insert_eq. split; [reflexivity |]. simpl.
           split; [done |].
           split; [by intros p Hp; rewrite lookup_insert_ne |].
           split; [apply recordResponse_requestID |].
           split; [by right |].
           split; [done |]. split; [apply recordResponse_streams |].
           split; [done |]. right. right. exists h, r, d, o.
           unfold ok_payload. rewrite HT, HS. by repeat split.
        -- unfold ret. eexists _, _, _, _. split; [reflexivity |]. simpl.
           rewrite lookup_insert_eq. split; [reflexivity |].
           split; [done |].
           split; [by intros p Hp; rewrite lookup_insert_ne |].
           split; [apply recordResponse_requestID |].
           split; [by left |].
           split; [done |]. split; [apply recordResponse_streams |].
           split; [done |]. by left.
      * (* NOT_LEADER *)
        unfold bind at 1. unfold Reconnect, modify, on_session. simpl.
        unfold bind at 1. unfold Connect, on_session. simpl.
        set (c0 := Conns.Reconnect (ResponseHeader.Leader h)
                     (Session.conns (session w))).
        destruct (Conns.Connect d c0) as [[conn|err] c1] eqn:EC.
        -- destruct o as [e|].
           ++ lazymatch goal with
              | |- ∃ x evs w1 obj1, stop_closing _ _ ?e0 ?w0 = _ ∧ _ =>
                  destruct (Hstop e0 w0 obj)
                    as (x & evs & w1 & obj1 & E & H);
                    try done; [by left |]
              end.
              exists x, evs, w1, obj1. split; [exact E |].
              destruct H as (? & ? & ? & ? & ? & Hx). repeat split; try done.
              by destruct x as [|[]].
           ++ unfold ret. eexists _, _, _, obj.
              split; [reflexivity |]. simpl.
              repeat split; try done; [by left |]. left. by split.
        -- lazymatch goal with
           | |- ∃ x evs w1 obj1, stop_closing _ _ ?e0 ?w0 = _ ∧ _ =>
               destruct (Hstop e0 w0 obj)
                 as (x & evs & w1 & obj1 & E & H);
                 try done; [by left |]
           end.
           exists x, evs, w1, obj1. split; [exact E |].
           destruct H as (? & ? & ? & ? & ? & Hx). repeat split; try done.
           by destruct x as [|[]].
      * (* ERROR *)
        destruct (Hstop [] w obj Hobj) as (x & evs & w1 & obj1 & E & H);
          try done; [by left |].
        exists x, evs, w1, obj1. split; [done |].
        destruct H as (? & ? & ? & ? & ? & Hx). repeat split; try done.
        by destruct x as [|[]].
      * unfold ret. eexists _, _, w, obj. split; [reflexivity |].
        repeat split; try done; [by left |]. left. by split.
    + (* OPEN_STREAM *)
      unfold bind, Serialize. rewrite Hobj. unfold Stream.Serialize.
      destruct (decide _) as [Hid|Hid]; simpl.
      * unfold close_handshakeCh.
        destruct (handshakeCh rd) as [[|]|] eqn:Hh; unfold ret;
          eexists _, _, _, _; (split; [reflexivity |]); simpl;
          rewrite lookup_insert_eq; (split; [reflexivity |]);
          (split; [done |]);
          (split; [by intros p Hp; rewrite lookup_insert_ne |]);
          (split; [done |]); (split; [by right |]).
        -- done.
        -- repeat split; try done. right. left. split; [done |].
           unfold ok_payload. by rewrite HT.
        -- repeat split; try done. right. left. split; [done |].
           unfold ok_payload. by rewrite HT.
      * unfold ret. eexists _, _, _, _. split; [reflexivity |]. simpl.
        rewrite lookup_insert_eq. split; [reflexivity |].
        split; [done |].
        split; [by intros p Hp; rewrite lookup_insert_ne |].
        split; [done |]. split; [by left |].
        repeat split; try done. left. by split.
    + (* CLOSE_STREAM *)
      unfold bind at 1. unfold Serialize. rewrite Hobj.
      unfold Stream.Serialize.
      destruct (decide _) as [Hid|Hid]; simpl.
      * lazymatch goal with
        | |- ∃ x evs w1 obj1, stop_closing _ _ ?e0 ?w0 = _ ∧ _ =>
            destruct (Hstop e0 w0
                        (Stream.mk (Stream.ID obj)
                           (uint64 (Stream.responseID obj + 1))))
              as (x & evs & w1 & obj1 & E & H);
              [apply lookup_insert_eq | done
              | by intros p Hp; simpl; rewrite lookup_insert_ne
              | done | done | by right |]
        end.
        exists x, evs, w1, obj1. split; [exact E |].
        destruct H as (? & ? & ? & ? & ? & Hx). repeat split; try done.
        by destruct x as [|[]].
      * unfold ret. eexists _, _, _, _. split; [reflexivity |]. simpl.
        rewrite lookup_insert_eq. split; [reflexivity |].
        split; [done |].
        split; [by intros p Hp; rewrite lookup_insert_ne |].
        split; [done |]. split; [by left |].
        repeat split; try done. left. by split.
    + unfold ret. eexists _, _, w, obj. split; [reflexivity |].
      repeat split; try done; [by left |]. left. by split.
Qed.
End CommandStreamTurn.

Section CommandStreamRun.
Context {Call R : Type}.
Variable f : Conns.Conn → RequestHeader.t → Call.

(** What a whole run of [commandStream] does. *)
Lemma commandStream_run_spec (script : list (recv R)) (stream : loc)
    (rq : RequestHeader.t) (rd : Reader R) (w : World) (obj : Stream.t) :
  heap w !! stream = Some obj →
  responseCh_closed rd = false →
  ∃ st rd' evs w' obj',
    commandStream f script stream rq rd w = ((st, rd', evs), w')
    ∧ heap w' !! stream = Some obj'
    ∧ Stream.ID obj' = Stream.ID obj
    ∧ (∀ p, p ≠ stream → heap w' !! p = heap w !! p)
    ∧ Session.requestID (session w') = Session.requestID (session w)
    ∧ (∃ l, delivered rd' = delivered rd ++ l
            ∧ l `sublist_of` (script ≫= ok_payload))
    ∧ (handshakeCh rd = None → st ≠ Panicked)
    ∧ (responseCh_closed rd' = true ↔ st = Exited)
    ∧ Session.streams (session w')
      = match st with
        | Exited => delete (Stream.ID obj) (Session.streams (session w))
        | _ => Session.streams (session w)
        end.
Proof.
  revert rd w obj.
  induction script as [|m rest IH]; intros rd w obj Hobj Hopen.
  - exists Reading, rd, [], w, obj. simpl. repeat split; try done.
    + exists []. by rewrite app_nil_r.
    + by rewrite Hopen.
  - rewrite commandStream_cons.
    destruct (commandStream_turn_spec f m stream rq rd w obj Hobj Hopen)
      as (x & evs & w1 & obj1 & E & H1 & HID & Hoth & Hrq & _ & Hx).
    rewrite E. destruct x as [rd1|st rd1].
    + destruct Hx as (Hopen1 & Hst & Hnil & Hdel).
      destruct (IH rd1 w1 obj1 H1 Hopen1)
        as (st & rd' & evs' & w' & obj' & E' & H' & HID' & Hoth' & Hrq'
            & (l & Hl & Hsub) & Hpanic & Hclosed & Hst').
      rewrite traced_eq, E'. simpl.
      exists st, rd', (evs ++ evs'), w', obj'. split; [done |].
      split; [done |]. split; [congruence |].
      split; [by intros p Hp; rewrite Hoth', Hoth |].
      split; [congruence |].
      split; [| split; [by auto | split; [done |]]].
      * change ((m :: rest) ≫= ok_payload)
          with (ok_payload m ++ (rest ≫= ok_payload)).
        destruct Hdel as [[Hd _]|[[Hd _]|(h & r & d & o & _ & Hp & Hd & _)]].
        -- exists l. split; [congruence |]. by apply sublist_inserts_l.
        -- exists l. split; [congruence |]. by apply sublist_inserts_l.
        -- exists (r :: l). split.
           ++ rewrite Hl, Hd. by rewrite <- app_assoc.
           ++ rewrite Hp. simpl. by apply sublist_skip.
      * rewrite Hst', HID, Hst. done.
    + exists st, rd1, evs, w1, obj1. split; [done |].
      split; [done |]. split; [done |]. split; [done |]. split; [done |].
      destruct st as [| |]; [done | |].
      * destruct Hx as (Hc & Hd & Hst).
        split; [exists []; split; [by rewrite app_nil_r | apply sublist_nil_l] |].
        split; [done |]. split; [done |]. done.
      * destruct Hx as (-> & Hst & Hh).
        split; [exists []; split; [by rewrite app_nil_r | apply sublist_nil_l] |].
        split; [congruence |]. split; [by rewrite Hopen |]. done.
Qed.
End CommandStreamRun.

Section CommandStreamOrder.
Context {Call R : Type}.
Variable f : Conns.Conn → RequestHeader.t → Call.
Variable rid : R → Z.

Lemma commandStream_run_ids (script : list (recv R)) (stream : loc)
    (rq : RequestHeader.t) (rd : Reader R) (w : World) (obj : Stream.t) :
  heap w !! stream = Some obj →
  responseCh_closed rd = false →
  Forall (carries_id rid) script →
  0 <= Stream.responseID obj →
  Stream.responseID obj + Z.of_nat (length script) < 2 ^ 64 →
  ∃ l obj',
    delivered (eval (commandStream f script stream rq rd) w).1.2
    = delivered rd ++ l
    ∧ heap (exec (commandStream f script stream rq rd) w) !! stream
      = Some obj'
    ∧ Stream.responseID obj <= Stream.responseID obj'
      <= Stream.responseID obj + Z.of_nat (length script)
    ∧ Forall (λ r, Stream.responseID obj < rid r
                   <= Stream.responseID obj') l
    ∧ StronglySorted Z.lt (rid <$> l).
Proof.
  revert rd w obj.
  induction script as [|m rest IH]; intros rd w obj Hobj Hopen Hids H0 Hn.
  - exists [], obj. unfold eval, exec. simpl. rewrite app_nil_r.
    repeat split; try done; try lia; constructor.
  - apply Forall_cons in Hids as [Hm Hrest].
    rewrite length_cons in Hn.
    unfold eval, exec. rewrite commandStream_cons.
    destruct (commandStream_turn_spec f m stream rq rd w obj Hobj Hopen)
      as (x & evs & w1 & obj1 & E & H1 & HID & Hoth & Hrq & Hr & Hx).
    rewrite E.
    assert (Stream.responseID obj <= Stream.responseID obj1
            <= Stream.responseID obj + 1) as Hb.
    { destruct Hr as [->| ->]; [lia |]. rewrite uint64_succ; lia. }
    destruct x as [rd1|st rd1].
    + destruct Hx as (Hopen1 & Hst & Hnil & Hdel).
      destruct (IH rd1 w1 obj1 H1 Hopen1 Hrest)
        as (l & obj' & Hl & H' & Hb' & Hall & Hsorted); [lia | lia |].
      unfold eval, exec in Hl, H'. rewrite traced_eq. simpl.
      assert (Forall (λ r, Stream.responseID obj < rid r
                           <= Stream.responseID obj') l) as Hall'.
      { eapply Forall_impl; [exact Hall |]. simpl. intros r ?. lia. }
      destruct Hdel as [[Hd _]|[[Hd _]|(h & r & d & o & -> & _ & Hd & Hh & Hs)]].
      * exists l, obj'. split; [by rewrite <- Hd |].
        repeat split; try done; lia.
      * exists l, obj'. split; [by rewrite <- Hd |].
        repeat split; try done; lia.
      * simpl in Hm. rewrite uint64_succ in Hs by lia.
        exists (r :: l), obj'.
        split; [etrans; [exact Hl |]; by rewrite Hd, <- app_assoc |].
        split; [done |]. split; [lia |].
        split.
        -- constructor; [lia | done].
        -- rewrite fmap_cons. constructor; [done |].
           apply Forall_fmap. eapply Forall_impl; [exact Hall |].
           simpl. intros r' ?. lia.
    + simpl. exists [], obj1. rewrite app_nil_r.
      assert (delivered rd1 = delivered rd) as ->.
      { destruct st; [done | by destruct Hx as (_ & ? & _)
                     | by destruct Hx as (-> & _)]. }
      repeat split; try done; try lia; constructor.
Qed.
End CommandStreamOrder.

Section QueryStreamRun.
Context {Call R : Type}.
Variable f : Conns.Conn → RequestHeader.t → Call.

(** What one turn of [queryStream] does, for a reader with an open
    response channel. *)
Lemma queryStream_turn_spec (m : recv R) (rq : RequestHeader.t)
    (rd : Reader R) (w : World) :
  responseCh_closed rd = false →
  ∃ x evs w1,
    queryStream_turn f m rq rd w = ((x, evs), w1)
    ∧ heap w1 = heap w
    ∧ Session.streams (session w1) = Session.streams (session w)
    ∧ Session.requestID (session w1) = Session.requestID (session w)
    ∧ match x with
      | GoOn rd1 =>
          responseCh_closed rd1 = false
          ∧ delivered rd1 = delivered rd ++ ok_payload m
      | Stop Exited rd1 =>
          responseCh_closed rd1 = true ∧ delivered rd1 = delivered rd
      | Stop Panicked rd1 =>
          rd1 = rd
          ∧ handshakeCh rd ≠ Some false
          ∧ ∃ h r d o, m = Recv h r d o
                       ∧ ResponseHeader.Type_ h = ResponseType_OPEN_STREAM
      | Stop Reading _ => False
      end.
Proof.
  intros Hopen.
  assert (∀ (evs : list (event Call)) w0,
            stop_returning rd evs w0
            = ((Stop Exited (mkReader (delivered rd) true (handshakeCh rd)),
                evs), w0)) as Hstop.
  { intros evs w0. unfold stop_returning, close_responseCh.
    by rewrite Hopen. }
  destruct m as [e|h r d o]; simpl.
  - rewrite Hstop. by eexists _, _, _.
  - unfold ok_payload. destruct (ResponseHeader.Type_ h) eqn:HT.
    + destruct (ResponseHeader.Status h) eqn:HS.
      * unfold bind, recordResponse, modify, on_session, send.
        rewrite Hopen. unfold ret. eexists _, _, _.
        split; [reflexivity |]. simpl.
        split; [done |]. split; [apply recordResponse_streams |].
        split; [apply recordResponse_requestID | done].
      * unfold bind at 1. unfold Reconnect, modify, on_session. simpl.
        unfold bind. unfold Connect, on_session. simpl.
        destruct (Conns.Connect d _) as [[conn|err] c1].
        -- destruct o as [e|].
           ++ rewrite Hstop. by eexists _, _, _.
           ++ unfold ret. eexists _, _, _. split; [reflexivity |]. simpl.
              by rewrite app_nil_r.
        -- rewrite Hstop. by eexists _, _, _.
      * rewrite Hstop. by eexists _, _, _.
      * unfold ret. eexists _, _, _. split; [reflexivity |].
        by rewrite app_nil_r.
    + unfold close_handshakeCh_unguarded.
      destruct (handshakeCh rd) as [[|]|] eqn:Hh; unfold ret;
        eexists _, _, _; (split; [reflexivity |]); simpl;
        repeat split; try done; try (by rewrite app_nil_r);
        try (by eexists _, _, _, _).
    + rewrite Hstop. by eexists _, _, _.
    + unfold ret. eexists _, _, _. split; [reflexivity |].
      by rewrite app_nil_r.
Qed.

(** What a whole run of [queryStream] does. *)
Lemma queryStream_run_spec (script : list (recv R)) (rq : RequestHeader.t)
    (rd : Reader R) (w : World) :
  responseCh_closed rd = false →
  ∃ st rd' evs w',
    queryStream f script rq rd w = ((st, rd', evs), w')
    ∧ heap w' = heap w
    ∧ Session.streams (session w') = Session.streams (session w)
    ∧ Session.requestID (session w') = Session.requestID (session w)
    ∧ (∃ l, delivered rd' = delivered rd ++ l
            ∧ l `prefix_of` (script ≫= ok_payload)
            ∧ (st = Reading → l = script ≫= ok_payload))
    ∧ (responseCh_closed rd' = true ↔ st = Exited).
Proof.
  revert rd w. induction script as [|m rest IH]; intros rd w Hopen.
  - exists Reading, rd, [], w. simpl. repeat split; try done.
    + exists []. by rewrite app_nil_r.
    + by rewrite Hopen.
  - rewrite queryStream_cons.
    destruct (queryStream_turn_spec m rq rd w Hopen)
      as (x & evs & w1 & E & Hh & Hst & Hrq & Hx).
    rewrite E.
    change ((m :: rest) ≫= ok_payload)
      with (ok_payload m ++ (rest ≫= ok_payload)).
    destruct x as [rd1|st rd1].
    + destruct Hx as [Hopen1 Hd].
      destruct (IH rd1 w1 Hopen1)
        as (st & rd' & evs' & w' & E' & Hh' & Hst' & Hrq'
            & (l & Hl & Hpre & Hall) & Hclosed).
      rewrite traced_eq, E'. simpl.
      exists st, rd', (evs ++ evs'), w'. split; [done |].
      split; [congruence |]. split; [congruence |]. split; [congruence |].
      split; [| done].
      exists (ok_payload m ++ l). split; [| split].
      * by rewrite Hl, Hd, <- app_assoc.
      * by apply prefix_app.
      * intros Hr. by rewrite Hall.
    + exists st, rd1, evs, w1. split; [done |].
      split; [done |]. split; [done |]. split; [done |].
      destruct st as [| |]; [done | |].
      * destruct Hx as [Hc Hd]. split; [| done].
        exists []. rewrite app_nil_r. repeat split; try done.
        apply prefix_nil.
      * destruct Hx as (-> & _). split; [| by rewrite Hopen].
        exists []. rewrite app_nil_r. repeat split; try done.
        apply prefix_nil.
Qed.
End QueryStreamRun.

(** X10. A command-stream reader closes its response channel exactly
    when it exits, and exactly then removes its own stream from the
    registry; until then the registry is as it found it. *)
Theorem commandStream_exit_closes_and_deregisters {Call R : Type}
    (f : Conns.Conn → RequestHeader.t → Call)
    (script : list (recv R)) (stream : loc) (rq : RequestHeader.t)
    (rd : Reader R) (w : World) (obj : Stream.t) :
  heap w !! stream = Some obj →
  responseCh_closed rd = false →
  let r := commandStream f script stream rq rd w in
  (responseCh_closed (final_reader r) = true ↔ final_status r = Exited)
  ∧ Session.streams (session (final_world r))
    = match final_status r with
      | Exited => delete (Stream.ID obj) (Session.streams (session w))
      | _ => Session.streams (session w)
      end.
Proof.
  intros Hobj Hopen.
  destruct (commandStream_run_spec f script stream rq rd w obj Hobj Hopen)
    as (st & rd' & evs & w' & obj' & E & _ & _ & _ & _ & _ & _ & Hc & Hs).
  simpl. unfold final_reader, final_status, final_world. by rewrite E.
Qed.

Lemma commandStream_exit_closes_and_deregisters_witness :
  Session.streams
    (session (final_world
                (commandStream (λ conn header, (conn, header)) watch_script
                   watch_stream watch_header (mkReader [] false (Some false))
                   watch_world)))
  = ∅.
Proof.
  etrans.
  - apply (commandStream_exit_closes_and_deregisters
             (λ conn header, (conn, header)) watch_script
             watch_stream watch_header (mkReader [] false (Some false))
             watch_world (Stream.mk 1 0)); reflexivity.
  - by vm_compute.
Defined.

(** X11. What a command-stream reader sends on its response channel
    are payloads of OK responses it received, each at most once and in
    the order of arrival, appended to what was sent before; messages of
    any other type or status are never forwarded. *)
Theorem commandStream_forwards_ok_responses_in_order {Call R : Type}
    (f : Conns.Conn → RequestHeader.t → Call)
    (script : list (recv R)) (stream : loc) (rq : RequestHeader.t)
    (rd : Reader R) (w : World) (obj : Stream.t) :
  heap w !! stream = Some obj →
  responseCh_closed rd = false →
  ∃ l, delivered (final_reader (commandStream f script stream rq rd w))
       = delivered rd ++ l
       ∧ l `sublist_of` (script ≫= ok_payload).
Proof.
  intros Hobj Hopen.
  destruct (commandStream_run_spec f script stream rq rd w obj Hobj Hopen)
    as (st & rd' & evs & w' & obj' & E & _ & _ & _ & _ & Hl & _).
  unfold final_reader. by rewrite E.
Qed.

Lemma commandStream_forwards_ok_responses_in_order_witness :
  ∃ l, delivered
         (final_reader
            (commandStream (λ conn header, (conn, header)) watch_script
               watch_stream watch_header (mkReader [0] false (Some false))
               watch_world))
       = delivered (mkReader [0] false (Some false)) ++ l
       ∧ l `sublist_of` (watch_script ≫= ok_payload).
Proof.
  apply (commandStream_forwards_ok_responses_in_order
           (λ conn header, (conn, header)) watch_script
           watch_stream watch_header (mkReader [0] false (Some false))
           watch_world (Stream.mk 1 0)); reflexivity.
Defined.

(** X12. A command-stream reader writes no stream object but its own,
    never changes the id of its stream, and never touches the request
    counter. *)
Theorem commandStream_frame {Call R : Type}
    (f : Conns.Conn → RequestHeader.t → Call)
    (script : list (recv R)) (stream : loc) (rq : RequestHeader.t)
    (rd : Reader R) (w : World) (obj : Stream.t) :
  heap w !! stream = Some obj →
  responseCh_closed rd = false →
  let w' := final_world (commandStream f script stream rq rd w) in
  (∃ obj', heap w' !! stream = Some obj'
           ∧ Stream.ID obj' = Stream.ID obj)
  ∧ (∀ p, p ≠ stream → heap w' !! p = heap w !! p)
  ∧ Session.requestID (session w') = Session.requestID (session w).
Proof.
  intros Hobj Hopen.
  destruct (commandStream_run_spec f script stream rq rd w obj Hobj Hopen)
    as (st & rd' & evs & w' & obj' & E & H1 & H2 & H3 & H4 & _).
  simpl. unfold final_world. rewrite E. simpl. eauto.
Qed.

Lemma commandStream_frame_witness :
  Session.requestID
    (session (final_world
                (commandStream (λ conn header, (conn, header)) watch_script
                   watch_stream watch_header (mkReader [] false (Some false))
                   watch_world)))
  = Session.requestID (session watch_world).
Proof.
  apply (commandStream_frame
           (λ conn header, (conn, header)) watch_script
           watch_stream watch_header (mkReader [] false (Some false))
           watch_world (Stream.mk 1 0)); reflexivity.
Defined.

(** X13. The response ids of what a command-stream reader forwards are
    strictly increasing, all above the stream's last response id at the
    start and none above its last response id at the end (as long as
    that id does not wrap): no response is forwarded twice or behind a
    later one. *)
Theorem commandStream_forwarded_ids_increase {Call R : Type}
    (f : Conns.Conn → RequestHeader.t → Call) (rid : R → Z)
    (script : list (recv R)) (stream : loc) (rq : RequestHeader.t)
    (rd : Reader R) (w : World) (obj : Stream.t) :
  heap w !! stream = Some obj →
  responseCh_closed rd = false →
  Forall (carries_id rid) script →
  0 <= Stream.responseID obj →
  Stream.responseID obj + Z.of_nat (length script) < 2 ^ 64 →
  ∃ l obj',
    delivered (final_reader (commandStream f script stream rq rd w))
    = delivered rd ++ l
    ∧ heap (final_world (commandStream f script stream rq rd w)) !! stream
      = Some obj'
    ∧ Forall (λ r, Stream.responseID obj < rid r
                   <= Stream.responseID obj') l
    ∧ StronglySorted Z.lt (rid <$> l).
Proof.
  intros Hobj Hopen Hids H0 Hn.
  destruct (commandStream_run_ids f rid script stream rq rd w obj
              Hobj Hopen Hids H0 Hn)
    as (l & obj' & Hl & H' & _ & Hall & Hsorted).
  exists l, obj'. by repeat split.
Qed.

Lemma commandStream_forwarded_ids_increase_witness :
  ∃ l obj',
    delivered
      (final_reader
         (commandStream (λ conn header, (conn, header)) watch_script
            watch_stream watch_header (mkReader [] false (Some false))
            watch_world))
    = delivered (mkReader [] false (Some false)) ++ l
    ∧ heap (final_world
              (commandStream (λ conn header, (conn, header)) watch_script
                 watch_stream watch_header (mkReader [] false (Some false))
                 watch_world)) !! watch_stream
      = Some obj'
    ∧ Forall (λ r, Stream.responseID (Stream.mk 1 0) < r
                   <= Stream.responseID obj') l
    ∧ StronglySorted Z.lt ((λ r, r) <$> l).
Proof.
  apply (commandStream_forwarded_ids_increase
           (λ conn header, (conn, header)) (λ r, r) watch_script
           watch_stream watch_header (mkReader [] false (Some false))
           watch_world (Stream.mk 1 0)).
  - reflexivity.
  - reflexivity.
  - repeat constructor.
  - done.
  - by vm_compute.
Defined.

(** X14. A command-stream reader with an open handshake channel closes
    it at the first in-sequence OPEN_STREAM; a second in-sequence
    OPEN_STREAM closes the closed channel again: the goroutine panics,
    leaving the response channel open and the stream registered. *)
Theorem commandStream_handshake_panic {Call R : Type}
    (f : Conns.Conn → RequestHeader.t → Call)
    (stream : loc) (rq : RequestHeader.t)
    (rd : Reader R) (w : World) (obj : Stream.t)
    (h1 h2 : ResponseHeader.t) (r1 r2 : R) (d1 d2 o1 o2 : option error)
    (rest : list (recv R)) :
  heap w !! stream = Some obj →
  responseCh_closed rd = false →
  handshakeCh rd = Some false →
  ResponseHeader.Type_ h1 = ResponseType_OPEN_STREAM →
  ResponseHeader.Type_ h2 = ResponseType_OPEN_STREAM →
  ResponseHeader.ResponseID h1 = uint64 (Stream.responseID obj + 1) →
  ResponseHeader.ResponseID h2
  = uint64 (uint64 (Stream.responseID obj + 1) + 1) →
  let r := commandStream f
             (Recv h1 r1 d1 o1 :: Recv h2 r2 d2 o2 :: rest)
             stream rq rd w in
  final_status r = Panicked
  ∧ responseCh_closed (final_reader r) = false
  ∧ Session.streams (session (final_world r))
    = Session.streams (session w).
Proof.
  intros Hobj Hopen Hh HT1 HT2 Hid1 Hid2. simpl.
  unfold final_status, final_reader, final_world.
  rewrite HT1, HT2. unfold bind at 1 3 5. unfold Serialize at 1 3 5.
  rewrite Hobj.
  rewrite (Stream_Serialize_accepts h1 obj Hid1).
  unfold close_handshakeCh at 1 3 5. rewrite Hh. simpl.
  unfold bind, Serialize. simpl. rewrite lookup_insert_eq.
  rewrite (Stream_Serialize_accepts h2
             (Stream.mk (Stream.ID obj)
                (uint64 (Stream.responseID obj + 1))) Hid2).
  by simpl.
Qed.

Lemma commandStream_handshake_panic_witness :
  final_status
    (commandStream (λ conn header, (conn, header))
       [Recv (open_stream_response 1) 1 None None;
        Recv (open_stream_response 2) 2 None None]
       watch_stream watch_header (mkReader [] false (Some false))
       watch_world)
  = Panicked.
Proof.
  apply (commandStream_handshake_panic
           (λ conn header, (conn, header))
           watch_stream watch_header (mkReader [] false (Some false))
           watch_world (Stream.mk 1 0)
           (open_stream_response 1) (open_stream_response 2)
           1 2 None None None None []); reflexivity.
Defined.

(** X15. A query-stream reader forwards the payload of every OK
    response it receives until it exits, duplicates and out-of-order
    ones included: what it sent is a prefix of the OK payloads received,
    and all of them if it is still reading. It closes the response
    channel exactly when it exits, and it never touches the stream
    registry, the stream objects or the request counter. *)
Theorem queryStream_forwards_every_ok_response {Call R : Type}
    (f : Conns.Conn → RequestHeader.t → Call)
    (script : list (recv R)) (rq : RequestHeader.t)
    (rd : Reader R) (w : World) :
  responseCh_closed rd = false →
  let r := queryStream f script rq rd w in
  (∃ l, delivered (final_reader r) = delivered rd ++ l
        ∧ l `prefix_of` (script ≫= ok_payload)
        ∧ (final_status r = Reading → l = script ≫= ok_payload))
  ∧ (responseCh_closed (final_reader r) = true ↔ final_status r = Exited)
  ∧ heap (final_world r) = heap w
  ∧ Session.streams (session (final_world r)) = Session.streams (session w)
  ∧ Session.requestID (session (final_world r))
    = Session.requestID (session w).
Proof.
  intros Hopen.
  destruct (queryStream_run_spec f script rq rd w Hopen)
    as (st & rd' & evs & w' & E & Hh & Hs & Hr & Hl & Hc).
  simpl. unfold final_reader, final_status, final_world. by rewrite E.
Qed.

Lemma queryStream_forwards_every_ok_response_witness :
  heap (final_world
          (queryStream (λ conn header, (conn, header))
             [Recv (open_stream_response 0) 0 None None;
              Recv (ok_response 11 2) 2 None None;
              Recv (ok_response 11 2) 2 None None;
              Recv (ok_response 12 1) 1 None None]
             (request_with_id 0) (mkReader [] false (Some false))
             watch_world))
  = heap watch_world.
Proof.
  apply (queryStream_forwards_every_ok_response
           (λ conn header, (conn, header))
           [Recv (open_stream_response 0) 0 None None;
            Recv (ok_response 11 2) 2 None None;
            Recv (ok_response 11 2) 2 None None;
            Recv (ok_response 12 1) 1 None None]
           (request_with_id 0) (mkReader [] false (Some false))
           watch_world); reflexivity.
Defined.

(** X16. [queryStream] closes the handshake channel on every OPEN_STREAM
    without checking it: a reader whose handshake channel is nil or
    already closed panics on the next OPEN_STREAM. In particular, after
    a NOT_LEADER response and a successful reopening, the new reader
    runs with a nil handshake channel, and the OPEN_STREAM that opens
    the new stream makes it panic, with the response channel never
    closed. *)
Theorem queryStream_open_stream_panics {Call R : Type}
    (f : Conns.Conn → RequestHeader.t → Call)
    (rq : RequestHeader.t) (rd : Reader R) (w : World)
    (h : ResponseHeader.t) (r : R) (d o : option error)
    (rest : list (recv R)) :
  responseCh_closed rd = false →
  ResponseHeader.Type_ h = ResponseType_OPEN_STREAM →
  (handshakeCh rd ≠ Some false →
   queryStream f (Recv h r d o :: rest) rq rd w = ((Panicked, rd, []), w))
  ∧ (∀ h0 r0,
       ResponseHeader.Type_ h0 = ResponseType_RESPONSE →
       ResponseHeader.Status h0 = ResponseStatus_NOT_LEADER →
       let res := queryStream f
                    (Recv h0 r0 None None :: Recv h r d o :: rest) rq rd w in
       final_status res = Panicked
       ∧ responseCh_closed (final_reader res) = false
       ∧ delivered (final_reader res) = delivered rd).
Proof.
  intros Hopen HT. split.
  - intros Hh. simpl. rewrite HT. unfold close_handshakeCh_unguarded.
    by destruct (handshakeCh rd) as [[|]|].
  - intros h0 r0 HT0 HS0. simpl.
    unfold final_status, final_reader. rewrite HT0, HS0, HT.
    unfold bind, Reconnect, Connect, modify, on_session. simpl.
    by rewrite Hopen.
Qed.

Lemma queryStream_open_stream_panics_witness :
  final_status
    (queryStream (λ conn header, (conn, header))
       [Recv (not_leader_response "addr2") 0 None None;
        Recv (open_stream_response 0) 0 None None;
        Recv (ok_response 11 1) 1 None None]
       (request_with_id 0) (mkReader [] false (Some true)) watch_world)
  = Panicked.
Proof.
  apply (proj2 (queryStream_open_stream_panics
                  (λ conn header, (conn, header))
                  (request_with_id 0) (mkReader [] false (Some true))
                  watch_world (open_stream_response 0) 0 None None
                  [Recv (ok_response 11 1) 1 None None]
                  eq_refl eq_refl)
           (not_leader_response "addr2") 0); reflexivity.
Defined.

(** ** More on the stream registry *)

Lemma uint64_succ_ne (z : Z) : uint64 (uint64 (z + 1) + 1) ≠ uint64 (z + 1).
Proof.
  unfold uint64.
  pose proof (Z.mod_pos_bound (z + 1) (2 ^ 64) ltac:(lia)) as Hb.
  destruct (decide ((z + 1) mod 2 ^ 64 + 1 < 2 ^ 64)) as [Hlt|Hge].
  - rewrite (Z.mod_small ((z + 1) mod 2 ^ 64 + 1)) by lia. lia.
  - replace ((z + 1) mod 2 ^ 64 + 1) with (2 ^ 64) by lia.
    rewrite Z.mod_same by lia. lia.
Qed.

(** X17. [Serialize] drops duplicates: a header it has accepted is
    rejected when offered again, and the stream is left as it is; this
    holds at every value of the last response id, wrap-around
    included. *)
Theorem Serialize_rejects_duplicate (h : ResponseHeader.t) (st st' : Stream.t) :
  Stream.Serialize h st = (true, st') →
  Stream.Serialize h st' = (false, st').
Proof.
  unfold Stream.Serialize. destruct (decide _) as [Hid|]; [| done].
  intros [= <-]. simpl. destruct (decide _) as [Hid2|]; [| done].
  rewrite Hid in Hid2. symmetry in Hid2. by apply uint64_succ_ne in Hid2.
Qed.

Lemma Serialize_rejects_duplicate_witness :
  Stream.Serialize (ok_response 11 1) (Stream.mk 1 1)
  = (false, Stream.mk 1 1).
Proof.
  apply (Serialize_rejects_duplicate (ok_response 11 1) (Stream.mk 1 0)
           (Stream.mk 1 1)).
  reflexivity.
Defined.

(** X18. A stream just created is not advertised: right after
    [nextStreamHeader] no stream header of the state header carries its
    id, because every advertised id is at most the response id. It is
    advertised, with last response id 0, as soon as a response to its
    own request header is recorded with an index above the last
    index. *)
Theorem new_stream_advertised_once_acknowledged
    (name : option Name.t) (w : World) :
  Session.responseID (session w) <= Session.requestID (session w) →
  0 <= Session.requestID (session w) < 2 ^ 64 - 1 →
  let header := (eval (nextStreamHeader name) w).2 in
  let w1 := exec (nextStreamHeader name) w in
  (∀ hd, hd ∈ RequestHeader.Streams (eval (getState None) w1) →
         StreamHeader.StreamID hd ≠ RequestHeader.RequestID header)
  ∧ (∀ rs,
       ResponseHeader.Index rs > Session.lastIndex (session w1) →
       StreamHeader.mk (RequestHeader.RequestID header) 0
       ∈ RequestHeader.Streams
           (eval (getState None) (exec (recordResponse header rs) w1))).
Proof.
  intros Hle Hr. unfold eval, exec. rewrite nextStreamHeader_eq. simpl.
  rewrite uint64_succ by lia. split.
  - intros hd Hin. apply elem_of_getStreamHeaders in Hin
      as (k & p & st & _ & _ & Hid & ->). simpl in *. lia.
  - intros rs Hidx. apply elem_of_getStreamHeaders.
    exists (Session.requestID (session w) + 1),
      (fresh (dom (heap w))), (Stream.mk (Session.requestID (session w) + 1) 0).
    unfold recordResponse, modify, on_session. simpl.
    rewrite recordResponse_streams. simpl.
    rewrite !lookup_insert_eq. split; [done |]. split; [done |].
    split; [| done].
    rewrite recordResponse_fresh_responseID by done. simpl. lia.
Qed.

Lemma new_stream_advertised_once_acknowledged_witness :
  StreamHeader.mk
    (RequestHeader.RequestID (eval (nextStreamHeader None)
                                (session_at 10 0 0)).2) 0
  ∈ RequestHeader.Streams
      (eval (getState None)
         (exec (recordResponse
                  (eval (nextStreamHeader None) (session_at 10 0 0)).2
                  (ok_response 11 0))
               (exec (nextStreamHeader None) (session_at 10 0 0)))).
Proof.
  apply (proj2 (new_stream_advertised_once_acknowledged None
                  (session_at 10 0 0) ltac:(done) ltac:(done))
           (ok_response 11 0)).
  reflexivity.
Defined.

Lemma registry_bounded_invoke (m : method) (w : World) :
  (is_command m = true → Session.requestID (session w) < 2 ^ 64 - 1) →
  registry_bounded w → registry_bounded (exec (invoke m) w).
Proof.
  intros Hr [H0 Hb].
  destruct m; try (by split); try specialize (Hr eq_refl).
  - (* nextCommandHeader *)
    unfold exec, invoke, bind. rewrite nextCommandHeader_eq. simpl.
    rewrite uint64_succ by lia. split; simpl; [lia |].
    intros k p Hk. specialize (Hb k p Hk). lia.
  - (* nextStreamHeader *)
    unfold exec, invoke, bind. rewrite nextStreamHeader_eq. simpl.
    rewrite uint64_succ by lia. split; simpl; [lia |].
    intros k p. rewrite lookup_insert. case_decide; [lia |].
    intros Hk. specialize (Hb k p Hk). lia.
  - (* recordResponse *)
    unfold invoke, recordResponse. run_monad. unfold registry_bounded.
    simpl. rewrite recordResponse_requestID, recordResponse_streams.
    by split.
  - (* deleteStream *)
    unfold exec; simpl. split; [done |]. simpl. intros k p.
    rewrite lookup_delete. case_decide; [done |]. apply Hb.
  - (* Serialize *)
    unfold registry_bounded.
    pose proof (Serialize_session stream responseHeader w) as H.
    unfold exec, invoke, bind, ret in *.
    destruct (Serialize stream responseHeader w). simpl in *.
    rewrite H. by split.
Qed.

Lemma registry_bounded_invoke_all (ms : list method) (w : World) :
  Session.requestID (session w) + commands ms < 2 ^ 64 →
  registry_bounded w → registry_bounded (exec (invoke_all ms) w).
Proof.
  revert w. induction ms as [|m ms IH]; intros w Hk Hb; [done |].
  unfold exec. rewrite invoke_all_cons. simpl.
  rewrite commands_cons in Hk.
  assert (0 <= commands ms) by (unfold commands; lia).
  destruct Hb as [H0 Hb].
  destruct (invoke_requestID m w) as [Hr _]. simpl in Hr.
  apply IH.
  - rewrite Hr. destruct (is_command m); [rewrite uint64_succ |]; lia.
  - apply registry_bounded_invoke; [| by split].
    intros Hc. rewrite Hc in Hk. lia.
Qed.

(** X19. The ids under which streams are registered are request ids
    the session has allocated: in a session reached from a new one, every
    key of the registry lies between 1 and the request counter. The id
    of the next stream is therefore never in use (as long as the counter
    does not wrap). *)
Theorem registry_keys_are_allocated_ids (ms : list method)
    (partitionID : Z) (address : net.Address) (t : Z) :
  commands ms < 2 ^ 64 →
  let w := exec (invoke_all ms) (NewSession_init partitionID address t) in
  (∀ k p, Session.streams (session w) !! k = Some p →
          1 <= k <= Session.requestID (session w))
  ∧ Session.streams (session w) !! (Session.requestID (session w) + 1) = None.
Proof.
  intros Hk w.
  assert (registry_bounded w) as [H0 Hb].
  { apply registry_bounded_invoke_all; [simpl; lia |].
    split; [done |]. intros k p H. simpl in H. by rewrite lookup_empty in H. }
  split; [done |].
  destruct (Session.streams (session w) !! _) as [p|] eqn:E; [| done].
  specialize (Hb _ p E). lia.
Qed.

Lemma registry_keys_are_allocated_ids_witness :
  Session.streams
    (session (exec (invoke_all [call_nextStreamHeader None;
                                call_nextCommandHeader None;
                                call_nextStreamHeader None;
                                call_deleteStream 1])
                   (NewSession_init 1 "addr1" 30000000000)))
  !! (Session.requestID
        (session (exec (invoke_all [call_nextStreamHeader None;
                                    call_nextCommandHeader None;
                                    call_nextStreamHeader None;
                                    call_deleteStream 1])
                       (NewSession_init 1 "addr1" 30000000000))) + 1)
  = None.
Proof.
  apply (registry_keys_are_allocated_ids
           [call_nextStreamHeader None; call_nextCommandHeader None;
            call_nextStreamHeader None; call_deleteStream 1]
           1 "addr1" 30000000000).
  reflexivity.
Defined.

(** X20. Deleting a stream takes exactly its header out of the state
    header: in a session reached from a new one, the stream headers
    after [deleteStream id] are those before it whose stream id is not
    [id]; deleting an id that is not registered changes nothing. *)
Theorem deleteStream_removes_its_header (ms : list method)
    (partitionID : Z) (address : net.Address) (t : Z)
    (streamID : Z) (hd : StreamHeader.t) :
  let w := exec (invoke_all ms) (NewSession_init partitionID address t) in
  (hd ∈ getStreamHeaders (exec (deleteStream streamID) w)
   ↔ hd ∈ getStreamHeaders w ∧ StreamHeader.StreamID hd ≠ streamID)
  ∧ (Session.streams (session w) !! streamID = None →
     exec (deleteStream streamID) w = w).
Proof.
  intros w.
  assert (registry_wf w) as Hwf.
  { apply (invoke_all_preserves registry_wf registry_wf_invoke).
    apply registry_wf_init. }
  split.
  - rewrite !elem_of_getStreamHeaders. unfold exec. simpl. split.
    + intros (k & p & st & Hreg & Hp & Hle & ->).
      rewrite lookup_delete in Hreg. case_decide as Hk; [done |].
      destruct (Hwf k p Hreg) as (st' & Hp' & Hid).
      rewrite Hp in Hp'. injection Hp' as <-.
      split; [by exists k, p, st |]. simpl. congruence.
    + intros [(k & p & st & Hreg & Hp & Hle & ->) Hne].
      destruct (Hwf k p Hreg) as (st' & Hp' & Hid).
      rewrite Hp in Hp'. injection Hp' as <-. simpl in Hne.
      exists k, p, st. rewrite lookup_delete_ne by congruence. done.
  - intros Hnone. unfold exec, deleteStream, modify, on_session. simpl.
    rewrite delete_id by done. by destruct w as [[] ?].
Qed.

Lemma deleteStream_removes_its_header_witness :
  StreamHeader.mk 2 0
  ∈ getStreamHeaders
      (exec (deleteStream 1)
         (exec (invoke_all
                  [call_nextStreamHeader None;
                   call_nextStreamHeader None;
                   call_recordResponse (request_with_id 2) (ok_response 11 0)])
               (NewSession_init 1 "addr1" 30000000000))).
Proof.
  apply (proj2 (proj1 (deleteStream_removes_its_header
                         [call_nextStreamHeader None;
                          call_nextStreamHeader None;
                          call_recordResponse (request_with_id 2)
                                              (ok_response 11 0)]
                         1 "addr1" 30000000000 1 (StreamHeader.mk 2 0)))).
  split; [| discriminate].
  apply elem_of_getStreamHeaders.
  exists 2, 2%positive, (Stream.mk 2 0).
  repeat split; vm_compute; congruence.
Defined.

(** ** Opening a command stream *)

(** X21. The synchronous part of [doCommandStream], when the id of the
    next stream is free: if it fails, no stream is left registered; a
    connection failure consumes no request id and invokes no RPC,
    whereas a failed opening RPC has consumed the id. If it succeeds,
    the stream is registered under the request id of the header, with
    last response id 0, in a newly allocated object. *)
Theorem doCommandStream_open_outcomes {Call : Type}
    (f : Conns.Conn → RequestHeader.t → Call) (name : Name.t)
    (dial opening : option error) (w : World) :
  let id := uint64 (Session.requestID (session w) + 1) in
  Session.streams (session w) !! id = None →
  let r := doCommandStream_open f name dial opening w in
  match r.1.1 with
  | OpeningFailed err =>
      Session.streams (session r.2) = Session.streams (session w)
      ∧ ((r.1.2 = [] ∧ sequence_state r.2 = sequence_state w
          ∧ dial = Some err)
         ∨ (opening = Some err
            ∧ Session.requestID (session r.2) = id
            ∧ ∃ conn header, r.1.2 = [EvCall (f conn header)]
                             ∧ RequestHeader.RequestID header = id))
  | Opening stream header =>
      opening = None
      ∧ RequestHeader.RequestID header = id
      ∧ Session.requestID (session r.2) = id
      ∧ Session.streams (session r.2)
        = <[id := stream]> (Session.streams (session w))
      ∧ heap r.2 !! stream = Some (Stream.mk id 0)
      ∧ heap w !! stream = None
  end.
Proof.
  intros id Hfree r. subst r.
  unfold doCommandStream_open, bind, Connect, Conns.Connect.
  destruct (Conns.conn (Session.conns (session w))) as [k|] eqn:Hk;
    [| destruct dial as [e|]]; cbv beta iota zeta.
  2: { simpl. split; [done |]. left. by repeat split. }
  all: rewrite nextStreamHeader_eq; cbv beta iota zeta; simpl; fold id;
    destruct opening as [err|]; simpl.
  all: try (unfold Stream_Close, ret; simpl;
            rewrite lookup_insert_eq; simpl;
            rewrite delete_insert_eq, delete_id by done;
            split; [done |]; right; split; [done |]; split; [done |];
            by eexists _, _).
  all: repeat split; try done; try apply lookup_insert_eq;
    apply not_elem_of_dom, is_fresh.
Qed.

Lemma doCommandStream_open_outcomes_witness :
  match (doCommandStream_open (λ conn header, (conn, header))
           (Name.mk "test" "default") None (Some "unavailable")
           (session_at 10 0 0)).1.1 with
  | OpeningFailed err =>
      Session.streams
        (session (doCommandStream_open (λ conn header, (conn, header))
                    (Name.mk "test" "default") None (Some "unavailable")
                    (session_at 10 0 0)).2)
      = Session.streams (session (session_at 10 0 0))
  | Opening _ _ => False
  end.
Proof.
  pose proof (doCommandStream_open_outcomes (λ conn header, (conn, header))
                (Name.mk "test" "default") None (Some "unavailable")
                (session_at 10 0 0) eq_refl) as H.
  simpl in H. simpl. by destruct H as [H _].
Defined.

(** ** Transport errors *)

(** X22. RPC errors are retried without bound, on the same transport and
    without any reconnect: while every attempt fails in the transport,
    [doRequest] is still looping, it has invoked the closure once per
    attempt, always with the transport the pool was bound to, and the
    sequencing state is untouched. *)
Theorem doRequest_retries_transport_errors {Call R : Type}
    (rq : RequestHeader.t) (f : Conns.Conn → Call)
    (script : list (attempt R)) (w : World) :
  Forall (λ a, dial a = None ∧ ∃ e, answer a = CallFails e) script →
  let conn := default (Conns.Address (Session.conns (session w)))
                      (Conns.conn (Session.conns (session w))) in
  eval (doRequest rq f script) w
  = (Spinning, replicate (length script) (EvCall (f conn)))
  ∧ sequence_state (exec (doRequest rq f script) w) = sequence_state w.
Proof.
  intros Hall conn.
  assert (eval (doRequest rq f script) w
          = (Spinning, replicate (length script) (EvCall (f conn)))) as E.
  { subst conn. revert w.
    induction Hall as [|a rest [Hd [e He]] Hrest IH]; intros w; [done |].
    unfold eval. rewrite doRequest_cons, Hd, He.
    unfold Connect, Conns.Connect.
    destruct (Conns.conn (Session.conns (session w))) as [k|] eqn:Hk;
      rewrite traced_eq;
      match goal with
      | |- context [doRequest rq f rest ?w1] =>
          pose proof (IH w1) as E; unfold eval in E; rewrite E
      end; simpl; [by rewrite Hk | done]. }
  split; [done |].
  apply doRequest_unreturned_frame. intros r. by rewrite E.
Qed.

Lemma doRequest_retries_transport_errors_witness :
  eval (doRequest (request_with_id 1) (λ conn, (conn, request_with_id 1))
          [Attempt None (@CallFails string "unavailable");
           Attempt None (CallFails "unavailable");
           Attempt None (CallFails "deadline exceeded")])
       (session_at 10 1 0)
  = (Spinning,
     replicate 3 (EvCall ("addr1", request_with_id 1))).
Proof.
  apply (doRequest_retries_transport_errors
           (request_with_id 1) (λ conn, (conn, request_with_id 1))
           [Attempt None (@CallFails string "unavailable");
            Attempt None (CallFails "unavailable");
            Attempt None (CallFails "deadline exceeded")]
           (session_at 10 1 0)).
  repeat constructor; by eexists.
Defined.

(** ** Creating sessions *)

Lemma prepare_all_timeout (opts : list SessionOption) (o : sessionOptions) :
  timeout (prepare_all opts o)
  = match last opts with
    | Some (sessionTimeoutOption t) => t
    | None => timeout o
    end.
Proof.
  revert o. induction opts as [|[t] opts IH]; intros o; [done |].
  unfold prepare_all in *. simpl. rewrite IH.
  destruct opts as [|o' opts]; [done |]. rewrite last_cons_cons.
  destruct (last (o' :: opts)) as [[?]|] eqn:E; [done |].
  by apply last_None in E.
Qed.

Lemma prepare_all_id (opts : list SessionOption) (o : sessionOptions) :
  id (prepare_all opts o) = id o.
Proof.
  revert o. induction opts as [|[t] opts IH]; intros o; [done |].
  unfold prepare_all in *. simpl. by rewrite IH.
Qed.

(** A dispatch keeps every property of the world that connecting,
    reconnecting and recording a response keep. *)
Lemma doRequest_preserves {Call R : Type} (P : World → Prop)
    (rq : RequestHeader.t) (f : Conns.Conn → Call) :
  (∀ d w, P w → P (exec (Connect d) w)) →
  (∀ a w, P w → P (exec (Reconnect a) w)) →
  (∀ h w, P w → P (exec (recordResponse rq h) w)) →
  ∀ (script : list (attempt R)) w, P w → P (exec (doRequest rq f script) w).
Proof.
  intros HC HR HRec script.
  induction script as [|a rest IH]; intros w Hw; [done |].
  unfold exec. rewrite doRequest_cons.
  specialize (HC (dial a) w Hw). unfold exec in HC.
  destruct (Connect (dial a) w) as [[conn|err] w1]; [| done].
  destruct (answer a) as [e|h r].
  - rewrite traced_eq. by apply IH.
  - destruct (ResponseHeader.Status h).
    + by apply HRec.
    + rewrite traced_eq. by apply IH, HR.
    + done.
    + rewrite traced_eq. by apply IH.
Qed.

Lemma doRequest_static {Call R : Type}
    (rq : RequestHeader.t) (f : Conns.Conn → Call)
    (script : list (attempt R)) (w : World) :
  Session.Partition (session (exec (doRequest rq f script) w))
  = Session.Partition (session w)
  ∧ Session.Timeout (session (exec (doRequest rq f script) w))
    = Session.Timeout (session w).
Proof.
  apply (doRequest_preserves
           (λ w', Session.Partition (session w')
                  = Session.Partition (session w)
                  ∧ Session.Timeout (session w')
                    = Session.Timeout (session w))); [| | | done].
  - intros d w' H. unfold exec, Connect.
    by destruct (Conns.Connect d (Session.conns (session w'))).
  - by intros a w' H.
  - intros h w' H. unfold exec, recordResponse, modify, on_session. simpl.
    unfold recordResponse_session, recordResponse_locked.
    repeat (destruct (decide _); simpl in *); done.
Qed.

(** X23. [NewSession]: the timeout is that of the last
    [WithSessionTimeout] option, or 30 s without one, and the ticker
    interval half of it; creating the ticker panics exactly when that
    half is not positive. A session that comes back open has that
    timeout and the partition's id, has allocated no request id,
    recorded no response id and registered no stream; its session id and
    last index are those of the one OK response recorded: the session id
    is taken only if the response index is positive, and the last index
    is then the larger of the two. *)
Theorem NewSession_outcomes {R : Type} (uuid : string) (partition : Partition)
    (opts : list SessionOption) (script : list (attempt R)) :
  let t := match last opts with
           | Some (sessionTimeoutOption t) => t
           | None => default_timeout
           end in
  (NewSession uuid partition opts script = NewSession_panics
   ↔ Z.quot t 2 <= 0)
  ∧ ∀ w tick,
      NewSession uuid partition opts script = NewSession_ok w tick →
      tick = Z.quot t 2 ∧ 0 < tick
      ∧ Session.Timeout (session w) = t
      ∧ Session.Partition (session w) = Partition_ID partition
      ∧ Session.requestID (session w) = 0
      ∧ Session.responseID (session w) = 0
      ∧ Session.streams (session w) = ∅
      ∧ heap w = ∅
      ∧ ∃ h, h ∈ replies script
             ∧ ResponseHeader.Status h = ResponseStatus_OK
             ∧ Session.SessionID (session w)
               = (if decide (ResponseHeader.Index h > 0
                             ∧ ResponseHeader.SessionID h > 0)
                  then ResponseHeader.SessionID h else 0)
             ∧ Session.lastIndex (session w)
               = (if decide (ResponseHeader.Index h > 0)
                  then Z.max (ResponseHeader.SessionID h)
                             (ResponseHeader.Index h)
                  else 0).
Proof.
  intros t. unfold NewSession.
  rewrite prepare_all_timeout. simpl. fold t.
  set (w0 := NewSession_init (Partition_ID partition)
               (Partition_Address partition) t).
  destruct (decide (Z.quot t 2 <= 0)) as [Hq|Hq].
  { split; [done |]. intros w tick [=]. }
  split.
  { destruct (open script w0) as [[[r|e|] tr] w']; by split. }
  intros w tick.
  destruct (open script w0) as [[[r|e|] tr] w'] eqn:E; intros [= Hw Ht].
  subst w' tick. split; [done |]. split; [lia |].
  unfold open, doSession, bind, gets in E. simpl in E.
  set (rq := RequestHeader.mk None (int32 (Partition_ID partition)) 0 0 0
               (getStreamHeaders w0)) in E.
  set (g := λ conn, OpenSessionRequest conn rq t) in E.
  destruct (doRequest_static rq g script w0) as [HP HT].
  destruct (doRequest_returned_effect rq g script w0 r) as (h & Hin & HS & Hst).
  { unfold eval. by rewrite E. }
  unfold exec in HP, HT, Hst. rewrite E in HP, HT, Hst. simpl in HP, HT.
  apply sequence_state_fields in Hst as (H1 & H2 & H3 & H4 & H5 & H6).
  unfold recordResponse, modify, on_session in H1, H2, H3, H4, H5, H6.
  simpl in H1, H2, H3, H4, H5, H6.
  split; [done |]. split; [done |].
  rewrite H1, H2, H3, H4, H5, H6.
  rewrite recordResponse_requestID, recordResponse_streams.
  split; [done |]. split; [| split; [done | split; [done |]]].
  - unfold recordResponse_session, recordResponse_locked. simpl.
    repeat (destruct (decide _); simpl in *); try done; lia.
  - exists h. split; [done |]. split; [done |].
    unfold recordResponse_session, recordResponse_locked. simpl.
    repeat (destruct (decide _); simpl in *); try done; lia.
Qed.

Lemma NewSession_outcomes_witness :
  Session.lastIndex
    (session (exec (open [Attempt None (Replies (ok_response 10 0) "opened")])
                   (NewSession_init 1 "addr1" 2000000000)))
  = 10.
Proof.
  destruct (proj2 (NewSession_outcomes "5b0e" (mkPartition 1 "addr1")
                     [WithSessionTimeout 5000000000;
                      WithSessionTimeout 2000000000]
                     [Attempt None (Replies (ok_response 10 0) "opened")])
              (exec (open [Attempt None
                             (Replies (ok_response 10 0) "opened")])
                    (NewSession_init 1 "addr1" 2000000000))
              1000000000 eq_refl)
    as (_ & _ & _ & _ & _ & _ & _ & _ & h & Hin & _ & _ & Hl).
  apply list_elem_of_singleton in Hin. subst h. exact Hl.
Defined.

Lemma OpenSessions_cons {R : Type} (uuids : list string)
    (partition : Partition) (partitions : list Partition)
    (opts : list SessionOption) (scripts : list (list (attempt R)))
    (sessions : list World) :
  OpenSessions uuids (partition :: partitions) opts scripts
  = Some (inr sessions) →
  ∃ w tick sessions',
    sessions = w :: sessions'
    ∧ NewSession (hd "" uuids) partition opts (hd [] scripts)
      = NewSession_ok w tick
    ∧ OpenSessions (tl uuids) partitions opts (tl scripts)
      = Some (inr sessions').
Proof.
  simpl. destruct (NewSession _ partition opts _) as [|e| |w tick]; try done.
  destruct (OpenSessions _ partitions opts _) as [[e|sessions']|]; try done.
  intros [= <-]. by exists w, tick, sessions'.
Qed.

(** X24. When [OpenSessions] succeeds it returns one session per
    partition, in the order of the partitions, each bound to its
    partition's id and with no request id allocated yet. *)
Theorem OpenSessions_one_session_per_partition {R : Type}
    (uuids : list string) (partitions : list Partition)
    (opts : list SessionOption) (scripts : list (list (attempt R)))
    (sessions : list World) :
  OpenSessions uuids partitions opts scripts = Some (inr sessions) →
  length sessions = length partitions
  ∧ Forall2 (λ p w, Session.Partition (session w) = Partition_ID p
                    ∧ Session.requestID (session w) = 0
                    ∧ Session.streams (session w) = ∅)
            partitions sessions.
Proof.
  revert uuids scripts sessions.
  induction partitions as [|p ps IH]; intros uuids scripts sessions.
  - simpl. intros [= <-]. by split.
  - intros H. apply OpenSessions_cons in H
      as (w & tick & sessions' & -> & HN & Hrest).
    destruct (IH _ _ _ Hrest) as [Hlen Hall].
    apply NewSession_outcomes in HN as (_ & _ & _ & HP & HR & _ & HS & _).
    split; [simpl; by rewrite Hlen |]. by constructor.
Qed.

Lemma OpenSessions_one_session_per_partition_witness :
  length (exec (open [Attempt None (Replies (ok_response 10 0) "a")])
               (NewSession_init 1 "addr1" default_timeout)
          :: exec (open [Attempt None (Replies (ok_response 7 0) "b")])
                  (NewSession_init 2 "addr2" default_timeout)
          :: [])
  = length [mkPartition 1 "addr1"; mkPartition 2 "addr2"].
Proof.
  apply (OpenSessions_one_session_per_partition
           ["u1"; "u2"] [mkPartition 1 "addr1"; mkPartition 2 "addr2"] []
           [[Attempt None (Replies (ok_response 10 0) "a")];
            [Attempt None (Replies (ok_response 7 0) "b")]]).
  reflexivity.
Defined.

(** ** Keep-alive headers follow the readers *)

(** X25. The stream objects are shared between the registry and the
    readers: once [Serialize] has accepted a header for a registered
    stream whose id is at most the response id, the state header
    advertises that stream with the advanced last response id, and no
    longer with any other. *)
Theorem Serialize_shows_in_state_header (ms : list method)
    (partitionID : Z) (address : net.Address) (t : Z)
    (k : Z) (p : loc) (st : Stream.t) (h : ResponseHeader.t) :
  let w := exec (invoke_all ms) (NewSession_init partitionID address t) in
  Session.streams (session w) !! k = Some p →
  heap w !! p = Some st →
  k <= Session.responseID (session w) →
  ResponseHeader.ResponseID h = uint64 (Stream.responseID st + 1) →
  let w' := exec (Serialize p h) w in
  StreamHeader.mk k (uint64 (Stream.responseID st + 1))
  ∈ RequestHeader.Streams (eval (getState None) w')
  ∧ ∀ hd, hd ∈ RequestHeader.Streams (eval (getState None) w') →
          StreamHeader.StreamID hd = k →
          StreamHeader.ResponseID hd = uint64 (Stream.responseID st + 1).
Proof.
  intros w Hreg Hp Hle Hid w'.
  assert (registry_wf w) as Hwf.
  { apply (invoke_all_preserves registry_wf registry_wf_invoke).
    apply registry_wf_init. }
  destruct (Hwf k p Hreg) as (st0 & Hp0 & HID).
  rewrite Hp in Hp0. injection Hp0 as <-.
  assert (w' = mkWorld (session w)
                 (<[p := Stream.mk (Stream.ID st)
                           (uint64 (Stream.responseID st + 1))]> (heap w)))
    as ->.
  { subst w'. unfold exec, Serialize. rewrite Hp.
    by rewrite (Stream_Serialize_accepts h st Hid). }
  change (RequestHeader.Streams (eval (getState None) ?x))
    with (getStreamHeaders x).
  split.
  - apply elem_of_getStreamHeaders.
    exists k, p, (Stream.mk (Stream.ID st)
                    (uint64 (Stream.responseID st + 1))). simpl.
    rewrite lookup_insert_eq. repeat split; try done; simpl; [lia |].
    by rewrite HID.
  - intros hd Hin Hk.
    apply elem_of_getStreamHeaders in Hin
      as (k' & p' & st' & Hreg' & Hp' & _ & ->). simpl in *.
    rewrite lookup_insert in Hp'. case_decide as Hpp.
    + by injection Hp' as <-.
    + destruct (Hwf k' p' Hreg') as (st1 & Hp1 & HID1).
      rewrite Hp' in Hp1. injection Hp1 as <-.
      assert (k' = k) as -> by congruence.
      rewrite Hreg in Hreg'. by injection Hreg' as ->.
Qed.

Lemma Serialize_shows_in_state_header_witness :
  StreamHeader.mk 1 (uint64 (0 + 1))
  ∈ RequestHeader.Streams
      (eval (getState None)
         (exec (Serialize 1%positive (ok_response 12 1))
            (exec (invoke_all
                     [call_nextStreamHeader None;
                      call_recordResponse (request_with_id 1)
                                          (ok_response 11 0)])
                  (NewSession_init 1 "addr1" 30000000000)))).
Proof.
  apply (Serialize_shows_in_state_header
           [call_nextStreamHeader None;
            call_recordResponse (request_with_id 1) (ok_response 11 0)]
           1 "addr1" 30000000000 1 1%positive (Stream.mk 1 0)
           (ok_response 12 1)); vm_compute; congruence.
Defined.

(** ** The election watch goroutine *)

(** X26. The goroutine started by the election's [Watch] forwards, in
    order and as "changed" events, the terms of the responses that are
    not handshake (OPEN) responses; it panics exactly when one of those
    responses carries no term, having forwarded only events that came
    before it. *)
Theorem Watch_forward_changes (stream : list election.EventResponse) :
  let r := election.Watch_forward stream in
  (r.2 = false ↔ Forall is_Some (election.changes stream))
  ∧ (Some <$> (election.Event_Term <$> r.1))
    `prefix_of` (election.newTerm <$> election.changes stream)
  ∧ (r.2 = false →
     Some <$> (election.Event_Term <$> r.1)
     = election.newTerm <$> election.changes stream)
  ∧ Forall (λ e, election.Event_Type e = election.EventChanged) r.1.
Proof.
  induction stream as [|response rest IH]; simpl.
  - repeat split; try done; constructor.
  - unfold election.changes in *. simpl.
    destruct (election.Type_ response) as [|code]; [exact IH |].
    destruct (election.Term_ response) as [term|]; simpl.
    + destruct (election.Watch_forward rest) as [sent panicked].
      simpl in *. destruct IH as (IH1 & IH2 & IH3 & IH4).
      split; [| split; [| split]].
      * rewrite Forall_cons, IH1. split; [by split | by intros [_ ?]].
      * by apply prefix_cons.
      * intros Hp. f_equal. by apply IH3.
      * by constructor.
    + split; [| split; [apply prefix_nil | split; [done | constructor]]].
      split; [done |]. rewrite Forall_cons. by intros [[? [=]] _].
Qed.

Lemma Watch_forward_changes_witness :
  Some <$> (election.Event_Term
              <$> (election.Watch_forward
                     [election.mkEventResponse election.EventResponse_OPEN
                        None;
                      election.mkEventResponse (election.EventResponse_other 1)
                        (Some (election.mk_api_Term 1 "a" ["a"; "b"]));
                      election.mkEventResponse (election.EventResponse_other 1)
                        (Some (election.mk_api_Term 2 "b" ["b"]))]).1)
  = election.newTerm
      <$> election.changes
            [election.mkEventResponse election.EventResponse_OPEN None;
             election.mkEventResponse (election.EventResponse_other 1)
               (Some (election.mk_api_Term 1 "a" ["a"; "b"]));
             election.mkEventResponse (election.EventResponse_other 1)
               (Some (election.mk_api_Term 2 "b" ["b"]))].
Proof.
  apply (proj1 (proj2 (proj2 (Watch_forward_changes
           [election.mkEventResponse election.EventResponse_OPEN None;
            election.mkEventResponse (election.EventResponse_other 1)
              (Some (election.mk_api_Term 1 "a" ["a"; "b"]));
            election.mkEventResponse (election.EventResponse_other 1)
              (Some (election.mk_api_Term 2 "b" ["b"]))])))).
  reflexivity.
Defined.

(** ** Sequenced delivery on command streams *)


Section Forwarding.
Context {Call R : Type}.
Variable f : Conns.Conn → RequestHeader.t → Call.

End Forwarding.






